(** * mass_undelete.py: the adaptive concurrency loop of [RestoreManager]

    A shallow embedding of [src/mass_undelete.py]: the sliding error window
    ([get_error_rate]), one iteration of the controller loop
    ([adjust_concurrency]), the semaphore dispatcher ([self.sem]), the worker body
    ([restore_item]) and the batch planning of [run_async].

    Conventions of the embedding.
    - Python [float] is IEEE binary64, modelled with the Standard Library's
      [SpecFloat] at precision 53; every product, quotient and comparison on
      concurrency values and error rates goes through it.
    - A reading of [time.time()] is an exact rational number of seconds, and
      the difference of two readings is exact.
    - A raised exception is [None]. *)

From Stdlib Require Import String Ascii.
From Stdlib Require Import ZArith QArith Lia Lqa Bool List.
From Stdlib Require Import Sorting.Sorted Sorting.Permutation.
From Stdlib Require Import Floats.SpecFloat.
From Stdlib Require Import QArith.Qround Numbers.DecimalString.
Import ListNotations.

Open Scope Z_scope.

(** Exceptions propagate like [None] through a sequence of statements. *)
Notation "x <- c ;; k" :=
  (match c with Some x => k | None => None end)
  (at level 61, c at next level, right associativity).

(** ** Python floats *)

Module PyFloat.

Definition prec : Z := 53.
Definition emax : Z := 1024.

Definition float := spec_float.

(** [float(n)] for an [int]: the nearest binary64, [OverflowError] when
    there is none. *)
Definition of_int (n : Z) : option float :=
  match binary_normalize prec emax n 0 false with
  | S754_infinity _ => None
  | S754_nan => None
  | x => Some x
  end.

Definition zero : float := S754_zero false.
Definition one : float := binary_normalize prec emax 1 0 false.

(** The float a decimal literal [n/d] denotes: the binary64 nearest to the
    exact ratio. *)
Definition literal (n d : Z) : float :=
  SFdiv prec emax (binary_normalize prec emax n 0 false)
                  (binary_normalize prec emax d 0 false).

Definition mul (x y : float) : float := SFmul prec emax x y.
Definition ltb (x y : float) : bool := SFltb x y.
Definition leb (x y : float) : bool := SFleb x y.

(** [n * x] with [n] an [int] and [x] a [float]: the int is converted
    first. *)
Definition int_mul (n : Z) (x : float) : option float :=
  fn <- of_int n ;; Some (mul fn x).

(** [a / b] on two [int]s ([ZeroDivisionError] on a zero divisor).  Python
    rounds the exact quotient once; for operands below [2^53], which
    convert exactly, that is the rounded quotient of the two converted
    operands. *)
Definition int_truediv (a b : Z) : option float :=
  if b =? 0 then None
  else fa <- of_int a ;; fb <- of_int b ;; Some (SFdiv prec emax fa fb).

(** [int(x)]: truncation toward zero; [OverflowError] on an infinity,
    [ValueError] on a NaN. *)
Definition to_int (x : float) : option Z :=
  match x with
  | S754_zero _ => Some 0
  | S754_finite s m e => Some (cond_Zopp s (Z.shiftl (Zpos m) e))
  | S754_infinity _ => None
  | S754_nan => None
  end.

End PyFloat.

(** ** Times *)

(** A clock reading, in seconds. *)
Abbreviation time := Q (only parsing).

Definition Qlt_bool (x y : Q) : bool := negb (Qle_bool y x).

(** ** Attributes set once by [__init__] and never assigned again *)

Definition initial_concurrency : Z := 100.
Definition min_concurrency : Z := 10.
Definition max_concurrency : Z := 600.
Definition window_maxlen : nat := 100.
Definition window_duration : Q := 10.
Definition backoff_factor : PyFloat.float := PyFloat.literal 5 10.
Definition recovery_factor : PyFloat.float := PyFloat.literal 12 10.
Definition recovery_interval : Q := 5.
(** The literal [0.1] of [if error_rate > 0.1]. *)
Definition error_threshold : PyFloat.float := PyFloat.literal 1 10.

(** ** The semaphore dispatcher

    [self.sem] is a reference to an [asyncio.Semaphore].  The controller
    never changes the counter of a semaphore: it allocates a new one and
    re-binds [self.sem].  A task evaluates [self.sem] once, on entering
    [async with self.sem], and acquires and releases that object. *)

Record Semaphore := mkSemaphore {
  sem_initial : Z;      (* the constructor's argument *)
  sem_value : Z;        (* the internal counter: free slots *)
  sem_waiters : nat     (* tasks suspended in acquire() *)
}.

Module Dispatcher.

(** The semaphores allocated so far, in allocation order, and the one
    [self.sem] refers to. *)
Record t := mk {
  sems : list Semaphore;
  cur : nat
}.

(** [asyncio.Semaphore(n)] raises [ValueError] for a negative [n]. *)
Definition new_semaphore (n : Z) : option Semaphore :=
  if n <? 0 then None else Some (mkSemaphore n n 0).

Definition init (n : Z) : t := mk [mkSemaphore n n 0] 0.

(** [self.sem = asyncio.Semaphore(n)] *)
Definition resize (n : Z) (g : t) : option t :=
  s <- new_semaphore n ;; Some (mk (sems g ++ [s]) (length (sems g))).

Fixpoint update (i : nat) (f : Semaphore -> Semaphore) (l : list Semaphore)
  : list Semaphore :=
  match l, i with
  | [], _ => []
  | s :: l', O => f s :: l'
  | s :: l', S i' => s :: update i' f l'
  end.

Definition take (s : Semaphore) : Semaphore :=
  mkSemaphore (sem_initial s) (sem_value s - 1) (sem_waiters s).
Definition give (s : Semaphore) : Semaphore :=
  mkSemaphore (sem_initial s) (sem_value s + 1) (sem_waiters s).
Definition enqueue (s : Semaphore) : Semaphore :=
  mkSemaphore (sem_initial s) (sem_value s) (S (sem_waiters s)).
Definition dequeue (s : Semaphore) : Semaphore :=
  mkSemaphore (sem_initial s) (sem_value s - 1) (pred (sem_waiters s)).

(** Operations admitted through [s] and not yet released. *)
Definition holders (s : Semaphore) : Z := sem_initial s - sem_value s.

(** All operations in flight, whichever semaphore admitted them. *)
Definition in_flight (g : t) : Z :=
  fold_right (fun s acc => holders s + acc) 0 (sems g).

(** The capacity the dispatcher currently advertises: the size of the
    semaphore [self.sem] refers to. *)
Definition capacity (g : t) : Z :=
  match nth_error (sems g) (cur g) with
  | Some s => sem_initial s
  | None => 0
  end.

Inductive event :=
| AcquireNow          (* acquire() on [self.sem] returns at once *)
| AcquireWait         (* acquire() on [self.sem] suspends the caller *)
| Wake (i : nat)      (* a caller suspended on semaphore [i] is admitted *)
| Release (i : nat)   (* a holder of semaphore [i] leaves [async with] *)
| Resize (n : Z).     (* the controller re-binds [self.sem] *)

(** An admission: the caller enters the body of [async with]. *)
Definition enters (ev : event) : bool :=
  match ev with
  | AcquireNow | Wake _ => true
  | _ => false
  end.

(** One step; [None] when the event cannot happen in [g]. *)
Definition step (g : t) (ev : event) : option t :=
  match ev with
  | AcquireNow =>
      s <- nth_error (sems g) (cur g) ;;
      if 0 <? sem_value s
      then Some (mk (update (cur g) take (sems g)) (cur g))
      else None
  | AcquireWait =>
      s <- nth_error (sems g) (cur g) ;;
      Some (mk (update (cur g) enqueue (sems g)) (cur g))
  | Wake i =>
      s <- nth_error (sems g) i ;;
      if (0 <? sem_value s) && negb (Nat.eqb (sem_waiters s) 0)
      then Some (mk (update i dequeue (sems g)) (cur g))
      else None
  | Release i =>
      s <- nth_error (sems g) i ;;
      if 0 <? holders s
      then Some (mk (update i give (sems g)) (cur g))
      else None
  | Resize n => resize n g
  end.

Fixpoint run (evs : list event) (g : t) : option t :=
  match evs with
  | [] => Some g
  | ev :: evs' => g' <- step g ev ;; run evs' g'
  end.

(** The semaphore an admission goes through. *)
Definition entered_through (g : t) (ev : event) : option Semaphore :=
  match ev with
  | AcquireNow => nth_error (sems g) (cur g)
  | Wake i => nth_error (sems g) i
  | _ => None
  end.

End Dispatcher.

(** ** The manager's mutable state *)

Definition window := list (time * bool).

Record RestoreManager := mkRestoreManager {
  restored_count : Z;
  failed_count : Z;
  sem : Dispatcher.t;
  error_window : window;
  last_adjustment : time;
  current_concurrency : Z;
  last_error_time : time
}.

(** [__init__], run when the clock reads [t0]. *)
Definition init (t0 : time) : RestoreManager :=
  {| restored_count := 0;
     failed_count := 0;
     sem := Dispatcher.init initial_concurrency;
     error_window := [];
     last_adjustment := t0;
     current_concurrency := initial_concurrency;
     last_error_time := 0%Q |}.

Definition set_error_window (w : window) (st : RestoreManager) :=
  {| restored_count := restored_count st;
     failed_count := failed_count st;
     sem := sem st;
     error_window := w;
     last_adjustment := last_adjustment st;
     current_concurrency := current_concurrency st;
     last_error_time := last_error_time st |}.

Definition set_last_adjustment (t : time) (st : RestoreManager) :=
  {| restored_count := restored_count st;
     failed_count := failed_count st;
     sem := sem st;
     error_window := error_window st;
     last_adjustment := t;
     current_concurrency := current_concurrency st;
     last_error_time := last_error_time st |}.

(** [self.current_concurrency = n; self.sem = asyncio.Semaphore(n)] *)
Definition set_concurrency (n : Z) (st : RestoreManager)
  : option RestoreManager :=
  g <- Dispatcher.resize n (sem st) ;;
  Some {| restored_count := restored_count st;
          failed_count := failed_count st;
          sem := g;
          error_window := error_window st;
          last_adjustment := last_adjustment st;
          current_concurrency := n;
          last_error_time := last_error_time st |}.

(** ** The sliding error window *)

(** [deque(maxlen=100).append]: a full deque drops its leftmost entry. *)
Definition deque_append (x : time * bool) (w : window) : window :=
  if Nat.ltb (length w) window_maxlen then w ++ [x] else tl w ++ [x].

(** [(current_time - t) > self.window_duration] *)
Definition too_old (now : time) (e : time * bool) : bool :=
  Qlt_bool window_duration (now - fst e).

(** The [while ... popleft()] loop. *)
Fixpoint popleft_old (now : time) (w : window) : window :=
  match w with
  | [] => []
  | e :: w' => if too_old now e then popleft_old now w' else w
  end.

(** The generator of [recent_errors]: entries flagged 5xx whose age is at
    most the window duration. *)
Definition recent_error (now : time) (e : time * bool) : bool :=
  snd e && Qle_bool (now - fst e) window_duration.

(** [get_error_rate] at clock reading [now]: the rate and the window it
    leaves behind. *)
Definition get_error_rate (now : time) (w : window)
  : option (PyFloat.float * window) :=
  let w' := popleft_old now w in
  match w' with
  | [] => Some (PyFloat.zero, w')
  | _ :: _ =>
      let recent_errors := Z.of_nat (length (filter (recent_error now) w')) in
      r <- PyFloat.int_truediv recent_errors (Z.of_nat (length w')) ;;
      Some (r, w')
  end.

(** ** One iteration of [adjust_concurrency], woken at [now] *)

Definition backoff (c : Z) : option Z :=
  x <- PyFloat.int_mul c backoff_factor ;;
  n <- PyFloat.to_int x ;;
  Some (Z.max n min_concurrency).

Definition recover (c : Z) : option Z :=
  x <- PyFloat.int_mul c recovery_factor ;;
  n <- PyFloat.to_int x ;;
  Some (Z.min n max_concurrency).

Definition adjust_concurrency (now : time) (st : RestoreManager)
  : option RestoreManager :=
  if Qlt_bool (now - last_adjustment st) 1 then Some st
  else
    rw <- get_error_rate now (error_window st) ;;
    let error_rate := fst rw in
    let st1 := set_error_window (snd rw) st in
    let time_since_last_error := (now - last_error_time st1)%Q in
    st2 <-
      (if PyFloat.ltb error_threshold error_rate then
         new_concurrency <- backoff (current_concurrency st1) ;;
         if new_concurrency =? current_concurrency st1 then Some st1
         else set_concurrency new_concurrency st1
       else if Qlt_bool recovery_interval time_since_last_error
               && (current_concurrency st1 <? max_concurrency) then
         new_concurrency <- recover (current_concurrency st1) ;;
         if new_concurrency =? current_concurrency st1 then Some st1
         else set_concurrency new_concurrency st1
       else Some st1) ;;
    Some (set_last_adjustment now st2).

(** The ceiling a tick leaves. *)
Definition next_ceiling (now : time) (st : RestoreManager) : option Z :=
  st' <- adjust_concurrency now st ;; Some (current_concurrency st').

(** ** The worker: [restore_item] *)

Record Item := mkItem {
  path : string;
  deletion_id : string;
  depth : nat
}.

(** What [_undelete_path] did: it returned, or raised an exception whose
    [str()] is [error_str]. *)
Inductive outcome :=
| Returned
| Raised (error_str : string).

(** [pattern in s] on strings. *)
Fixpoint contains (pattern s : string) : bool :=
  String.prefix pattern s ||
  match s with
  | EmptyString => false
  | String _ s' => contains pattern s'
  end.

Definition error_patterns : list string :=
  [ "500 Server Error"; "502 Bad Gateway"; "503 Service Unavailable";
    "504 Gateway Timeout"; "ServerBusy"; "ThrottlingError" ]%string.

Definition is_5xx_error (error_str : string) : bool :=
  existsb (fun pattern => contains pattern error_str) error_patterns.

(** The test of [if "BlobAlreadyExists" not in error_str], negated. *)
Definition is_conflict (error_str : string) : bool :=
  contains "BlobAlreadyExists" error_str.

Definition add_restored (st : RestoreManager) :=
  {| restored_count := restored_count st + 1;
     failed_count := failed_count st;
     sem := sem st;
     error_window := error_window st;
     last_adjustment := last_adjustment st;
     current_concurrency := current_concurrency st;
     last_error_time := last_error_time st |}.

(** The block under [with self.lock] of the [except] branch. *)
Definition record_failure (now : time) (is_5xx : bool) (st : RestoreManager) :=
  {| restored_count := restored_count st;
     failed_count := failed_count st + 1;
     sem := sem st;
     error_window := deque_append (now, is_5xx) (error_window st);
     last_adjustment := last_adjustment st;
     current_concurrency := current_concurrency st;
     last_error_time := if is_5xx then now else last_error_time st |}.

Definition newline : string := String (ascii_of_nat 10) EmptyString.

(** The two [print] calls of a counted failure. *)
Definition failure_log (item : Item) (error_str : string) : list string :=
  [ (newline ++ "Failed to restore: " ++ path item)%string;
    ("Error: " ++ error_str)%string ].

Record restore_result := mkResult {
  state_after : RestoreManager;
  returned : bool;
  printed : list string
}.

(** The body of [async with self.sem] in [restore_item], given what the
    restore call did and the clock reading [now] of the [except] branch.
    Entering and leaving the [async with] are the dispatcher's [AcquireNow],
    [Wake] and [Release] events. *)
Definition restore_item (item : Item) (r : outcome) (now : time)
  (st : RestoreManager) : restore_result :=
  match r with
  | Returned => mkResult (add_restored st) true []
  | Raised error_str =>
      if negb (is_conflict error_str) then
        mkResult (record_failure now (is_5xx_error error_str) st) false
                 (failure_log item error_str)
      else mkResult st false []
  end.

(** ** Runs of the manager: controller ticks interleaved with the
    completions of restore calls *)

Inductive event :=
| Tick (now : time)                               (* the controller wakes *)
| Done (item : Item) (r : outcome) (now : time)   (* a restore call ends *)
| Report (now : time).     (* [get_error_rate] called for the status line *)

Definition event_time (ev : event) : time :=
  match ev with
  | Tick now => now
  | Done _ _ now => now
  | Report now => now
  end.

Definition step (st : RestoreManager) (ev : event) : option RestoreManager :=
  match ev with
  | Tick now => adjust_concurrency now st
  | Done item r now => Some (state_after (restore_item item r now st))
  | Report now =>
      rw <- get_error_rate now (error_window st) ;;
      Some (set_error_window (snd rw) st)
  end.

Fixpoint run (evs : list event) (st : RestoreManager) : option RestoreManager :=
  match evs with
  | [] => Some st
  | ev :: evs' => st' <- step st ev ;; run evs' st'
  end.

(** ** The batch plan of [run_async] *)

(** [s.split(sep)] for a one-character separator. *)
Fixpoint split (sep : ascii) (s : string) : list string :=
  match s with
  | EmptyString => [EmptyString]
  | String c s' =>
      if Ascii.eqb c sep then EmptyString :: split sep s'
      else match split sep s' with
           | seg :: rest => String c seg :: rest
           | [] => [String c EmptyString]
           end
  end.

(** The dict built for one entry [(name, deletion_id)] of the listing. *)
Definition make_item (entry : string * string) : Item :=
  {| path := fst entry;
     deletion_id := snd entry;
     depth := length (split "/" (fst entry)) |}.

(** [list.sort(key=...)] is a stable sort: entries with equal keys keep
    their order.  Stable insertion computes the same list. *)
Fixpoint insert_by_depth (x : Item) (l : list Item) : list Item :=
  match l with
  | [] => [x]
  | y :: l' =>
      if Nat.leb (depth x) (depth y) then x :: l
      else y :: insert_by_depth x l'
  end.

Fixpoint sort_by_depth (l : list Item) : list Item :=
  match l with
  | [] => []
  | x :: l' => insert_by_depth x (sort_by_depth l')
  end.

(** [min(1000, max(10, total_items // 3))] *)
Definition batch_size (total_items : nat) : nat :=
  Nat.min 1000 (Nat.max 10 (total_items / 3)).

(** [range(start, stop, step)] for a positive [step]; at most [fuel]
    elements. *)
Fixpoint range_from (fuel start stop step : nat) : list nat :=
  match fuel with
  | O => []
  | S fuel' =>
      if Nat.ltb start stop
      then start :: range_from fuel' (start + step) stop step
      else []
  end.

Definition range (start stop step : nat) : list nat :=
  range_from stop start stop step.

(** [l[i:j]] for [0 <= i <= j]. *)
Definition slice {A : Type} (l : list A) (i j : nat) : list A :=
  firstn (j - i) (skipn i l).

Definition make_batches {A : Type} (deleted_items : list A) : list (list A) :=
  let total_items := length deleted_items in
  let batch_size := batch_size total_items in
  let batches :=
    map (fun i => slice deleted_items i (i + batch_size))
        (range 0 (length deleted_items) batch_size) in
  match batches, deleted_items with
  | [], _ :: _ => [deleted_items]
  | _, _ => batches
  end.

(** The batches [run_async] goes on to process for a listing; [None] is the
    early [return] on an empty listing. *)
Definition plan (listing : list (string * string)) : option (list (list Item)) :=
  let deleted_items := map make_item listing in
  match deleted_items with
  | [] => None
  | _ :: _ => Some (make_batches (sort_by_depth deleted_items))
  end.

(** ** Bounded checks

    The float facts below are decided by evaluating the binary64 operations
    on every value of a finite range. *)

Definition all_upto (n : nat) (P : Z -> bool) : bool :=
  forallb P (map Z.of_nat (seq 0 (S n))).

Definition backoff_checked (c : Z) : bool :=
  match backoff c with
  | Some n => n =? Z.max (c / 2) min_concurrency
  | None => false
  end.

Definition recover_checked (c : Z) : bool :=
  match recover c with
  | Some n => n =? Z.min (c * 6 / 5) max_concurrency
  | None => false
  end.

(** A quotient [r / n] of a window: in [[0.0, 1.0]], and above the literal
    [0.1] exactly when [r/n > 1/10]. *)
Definition rate_checked (n r : Z) : bool :=
  match PyFloat.int_truediv r n with
  | Some x =>
      PyFloat.leb PyFloat.zero x && PyFloat.leb x PyFloat.one &&
      Bool.eqb (PyFloat.ltb error_threshold x) (n <? 10 * r)
  | None => false
  end.

Definition rates_checked (n : Z) : bool :=
  (n =? 0) || all_upto (Z.to_nat n) (rate_checked n).

(** ** What the specification says of the recovery step *)

(** [min(ceil(current * 1.2), max)], on exact numbers. *)
Definition spec_recovery (c : Z) : Z :=
  Z.min ((c * 6 + 4) / 5) max_concurrency.

(** ** States used in the examples *)

(** Three backoff steps away from the initial ceiling: 100, 50, 25, 12. *)
Definition three_errors : list event :=
  [ Done (mkItem "a" "1" 1) (Raised "503 Service Unavailable") 1000%Q;
    Tick 1001%Q; Tick 1002%Q; Tick 1003%Q ]%string.

(** A manager started at clock reading 1000. *)
Definition started : RestoreManager := init 1000%Q.

(** One server error at 1000, still in the window at 1007. *)
Definition one_old_error : list event :=
  [ Done (mkItem "a" "1" 1) (Raised "503 Service Unavailable") 1000%Q ]%string.

(** ** Clocks and windows *)



(** The entries of [w] no older than the window duration at [now]. *)
Definition within (now : time) (w : window) : window :=
  filter (fun e => negb (too_old now e)) w.


(** ** The states a run goes through *)

Record well_formed (st : RestoreManager) : Prop := mkWellFormed {
  wf_ceiling :
    min_concurrency <= current_concurrency st <= max_concurrency;
  wf_window : (length (error_window st) <= window_maxlen)%nat;
  wf_dispatcher : Dispatcher.capacity (sem st) = current_concurrency st
}.

(** The ceiling rule of one tick on exact integers: halve on a high error
    rate, else grow by a fifth when the last server error is old enough. *)
Definition exact_ceiling (error_rate : PyFloat.float)
  (time_since_last_error : Q) (c : Z) : Z :=
  if PyFloat.ltb error_threshold error_rate then
    Z.max (c / 2) min_concurrency
  else if Qlt_bool recovery_interval time_since_last_error
          && (c <? max_concurrency) then
    Z.min (c * 6 / 5) max_concurrency
  else c.

(** The manager after one server error recorded at 1000. *)
Definition after_one_error : RestoreManager :=
  state_after
    (restore_item (mkItem "a" "1" 1) (Raised "503 Service Unavailable")
                  1000%Q started)%string.

(** The manager after [three_errors]: its ceiling is 12. *)
Definition low_ceiling : RestoreManager :=
  match run three_errors started with
  | Some st => st
  | None => started
  end.

(** Two error texts: a conflict and a counted failure. *)
Definition conflict_text : string :=
  "The specified blob already exists. ErrorCode:BlobAlreadyExists".
Definition busy_text : string :=
  "503 Service Unavailable: ServerBusy".
Definition sample_item : Item := mkItem "dir/file" "132" 2.

(** ** What the specification says of the batch size *)

(** [clamp(x, lo, hi)] *)
Definition clamp (x lo hi : nat) : nat :=
  if Nat.ltb x lo then lo else if Nat.ltb hi x then hi else x.

(** The number of occurrences of [c] in [s]. *)
Fixpoint count_char (c : ascii) (s : string) : nat :=
  match s with
  | EmptyString => O
  | String c' s' =>
      if Ascii.eqb c' c then S (count_char c s') else count_char c s'
  end.

Definition depth_le (a b : Item) : Prop := (depth a <= depth b)%nat.

(** A listing whose paths have 3, 1, 2 and 1 segments. *)
Definition sample_listing : list (string * string) :=
  [ ("a/b/c", "1"); ("a", "2"); ("a/b", "3"); ("d", "4") ]%string.

(** The slice the comprehension takes at index [i]. *)
Definition chunk {A : Type} (l : list A) (bs i : nat) : list A :=
  slice l i (i + bs).
Arguments chunk : simpl never.

(** ** Dispatcher states *)

(** The holders of a list of semaphores. *)
Definition holders_of (l : list Semaphore) : Z :=
  fold_right (fun s acc => Dispatcher.holders s + acc) 0 l.

(** The holders admitted through semaphores that [self.sem] no longer
    refers to. *)
Definition earlier_holders (g : Dispatcher.t) : Z :=
  holders_of (firstn (Dispatcher.cur g) (Dispatcher.sems g)).

(** No semaphore has handed out more slots than it was created with, and
    [self.sem] is the semaphore allocated last. *)
Record slots_bounded (g : Dispatcher.t) : Prop := mkSlotsBounded {
  sb_slots :
    Forall (fun s => 0 <= Dispatcher.holders s <= sem_initial s) (Dispatcher.sems g);
  sb_cur : S (Dispatcher.cur g) = length (Dispatcher.sems g)
}.

(** The reading of the specification: whenever an operation is admitted,
    fewer operations than the current capacity are in flight. *)
Definition admission_below_capacity : Prop :=
  forall (evs : list Dispatcher.event) (g g' : Dispatcher.t) (ev : Dispatcher.event),
    Dispatcher.run evs (Dispatcher.init initial_concurrency) = Some g ->
    Dispatcher.enters ev = true ->
    Dispatcher.step g ev = Some g' ->
    Dispatcher.in_flight g < Dispatcher.capacity g.

(** Fifty operations admitted at capacity 100, then the controller halves
    the ceiling. *)
Definition halving_trace : list Dispatcher.event :=
  (repeat Dispatcher.AcquireNow 50 ++ [Dispatcher.Resize 50])%list.

Definition halved : Dispatcher.t :=
  match Dispatcher.run halving_trace (Dispatcher.init initial_concurrency) with
  | Some g => g
  | None => Dispatcher.init initial_concurrency
  end.

Definition halved_then_entered : Dispatcher.t :=
  match Dispatcher.step halved Dispatcher.AcquireNow with
  | Some g => g
  | None => halved
  end.

(** ** Further definitions: runs, counters and repeated adjustment *)

(** A restore call that returned. *)
Definition is_restored (ev : event) : bool :=
  match ev with
  | Done _ Returned _ => true
  | _ => false
  end.

(** A restore call that raised without the conflict signature. *)
Definition is_counted_failure (ev : event) : bool :=
  match ev with
  | Done _ (Raised error_str) _ => negb (is_conflict error_str)
  | _ => false
  end.

(** A counted failure whose text carries a 5xx signature. *)
Definition is_server_failure (ev : event) : bool :=
  match ev with
  | Done _ (Raised error_str) _ =>
      negb (is_conflict error_str) && is_5xx_error error_str
  | _ => false
  end.

(** A counted failure without a 5xx signature. *)
Definition is_other_failure (ev : event) : bool :=
  match ev with
  | Done _ (Raised error_str) _ =>
      negb (is_conflict error_str) && negb (is_5xx_error error_str)
  | _ => false
  end.

Definition count_events (p : event -> bool) (evs : list event) : Z :=
  Z.of_nat (length (filter p evs)).

(** The clock reading of the last server failure of a run, from [t]. *)
Definition last_server_failure (evs : list event) (t : Q) : Q :=
  fold_left (fun t ev => if is_server_failure ev then event_time ev else t)
            evs t.

(** A quotient with no server error in the window is [0.0]. *)
Definition zero_rate_checked (n : Z) : bool :=
  (n =? 0) ||
  match PyFloat.int_truediv 0 n with
  | Some (S754_zero false) => true
  | _ => false
  end.

Definition no_resize (ev : Dispatcher.event) : bool :=
  match ev with
  | Dispatcher.Resize _ => false
  | _ => true
  end.

(** A burst of a hundred failures shaped like a client error. *)
Definition not_found_burst : list event :=
  map (fun k => Done (mkItem "a" "1" 1) (Raised "404 Not Found")
                     (inject_Z (1000 + Z.of_nat k)))
      (seq 1 100).

(** One server error and ten other failures, all at 1000: an error rate of
    1/11, below the threshold, with a server error too recent to recover. *)
Definition mixed_failures : list event :=
  (one_old_error
   ++ repeat (Done (mkItem "a" "1" 1) (Raised "404 Not Found") 1000%Q) 10)%list.

Definition after_mixed : RestoreManager :=
  match run mixed_failures started with
  | Some st => st
  | None => started
  end.

Definition after_mixed_tick : RestoreManager :=
  match adjust_concurrency 1001 after_mixed with
  | Some st => st
  | None => after_mixed
  end.

(** ** The branch a tick takes *)

Inductive branch :=
| Skipped      (* [continue]: less than a second since the last adjustment *)
| Backoff      (* [if error_rate > 0.1] *)
| Recovery     (* the [elif] *)
| Hold.        (* neither *)

Definition branch_eqb (a b : branch) : bool :=
  match a, b with
  | Skipped, Skipped | Backoff, Backoff | Recovery, Recovery | Hold, Hold =>
      true
  | _, _ => false
  end.

(** The branch the loop body of [adjust_concurrency] takes at [now]. *)
Definition branch_taken (now : time) (st : RestoreManager) : option branch :=
  if Qlt_bool (now - last_adjustment st) 1 then Some Skipped
  else
    rw <- get_error_rate now (error_window st) ;;
    if PyFloat.ltb error_threshold (fst rw) then Some Backoff
    else if Qlt_bool recovery_interval (now - last_error_time st)
            && (current_concurrency st <? max_concurrency)
    then Some Recovery
    else Some Hold.

(** The branches taken by the ticks of a run, in order. *)
Fixpoint branches (evs : list event) (st : RestoreManager)
  : option (list branch) :=
  match evs with
  | [] => Some []
  | ev :: evs' =>
      st' <- step st ev ;;
      bs <- branches evs' st' ;;
      match ev with
      | Tick now => b <- branch_taken now st ;; Some (b :: bs)
      | _ => Some bs
      end
  end.

Definition count_branch (b : branch) (bs : list branch) : nat :=
  length (filter (branch_eqb b) bs).

(** How many halvings separate a ceiling from [min_concurrency]. *)
Fixpoint halvings (fuel : nat) (c : Z) : nat :=
  match fuel with
  | O => O
  | S fuel' =>
      if c <=? min_concurrency then O
      else S (halvings fuel' (Z.max (c / 2) min_concurrency))
  end.

Definition backoff_rank (c : Z) : nat := halvings 6 c.

(** How many recovery steps separate a ceiling from [max_concurrency]. *)
Fixpoint growths (fuel : nat) (c : Z) : nat :=
  match fuel with
  | O => O
  | S fuel' =>
      if max_concurrency <=? c then O
      else S (growths fuel' (Z.min (c * 6 / 5) max_concurrency))
  end.

Definition recovery_rank (c : Z) : nat := growths 24 c.

Definition backoff_rank_checked (c : Z) : bool :=
  (c <? min_concurrency) ||
  (Nat.eqb (backoff_rank (Z.max (c / 2) min_concurrency))
           (pred (backoff_rank c))
   && Nat.leb (backoff_rank c) 6
   && (negb (Nat.eqb (backoff_rank c) 0) || (c =? min_concurrency))).

Definition recovery_rank_checked (c : Z) : bool :=
  (c <? min_concurrency) ||
  (Nat.leb (recovery_rank c) 24
   && ((max_concurrency <=? c)
       || Nat.eqb (S (recovery_rank (Z.min (c * 6 / 5) max_concurrency)))
                  (recovery_rank c))).

(** A server error at 1000, then six ticks a second apart. *)
Definition six_backoffs : list event :=
  (one_old_error ++ map (fun k => Tick (inject_Z (1000 + Z.of_nat k)))
                        (seq 1 6))%list.

(** Three ticks a second apart with no failure at all. *)
Definition three_recoveries : list event :=
  [Tick 1001%Q; Tick 1002%Q; Tick 1003%Q].

(** A hundred and ten callers against a semaphore of a hundred slots, with
    no adjustment: a hundred enter, ten wait. *)
Definition steady_trace : list Dispatcher.event :=
  (repeat Dispatcher.AcquireNow 100 ++ repeat Dispatcher.AcquireWait 10
   ++ [Dispatcher.Release 0; Dispatcher.Wake 0])%list.

Definition steady : Dispatcher.t :=
  match Dispatcher.run steady_trace (Dispatcher.init 100) with
  | Some g => g
  | None => Dispatcher.init 100
  end.

(** A directory and an entry below it, listed child first. *)
Definition nested_listing : list (string * string) :=
  [ ("data/logs/app.log", "3"); ("data", "1"); ("other", "4");
    ("data/logs", "2") ]%string.

(** ** Elapsed times: [format_elapsed_time] *)

(** [int(x)] on a float read as an exact number: truncation toward zero. *)
Definition int_of_Q (x : Q) : Z :=
  if Qle_bool 0 x then Qfloor x else - Qfloor (- x).

(** [x // y] and [x % y] on floats, read as exact numbers. *)
Definition floordiv (x y : Q) : Q := inject_Z (Qfloor (x / y)).
Definition modulo (x y : Q) : Q := (x - y * inject_Z (Qfloor (x / y)))%Q.

(** The format specification [02d]: decimal digits, zero-padded after the
    sign to a width of at least two. *)
Definition format_02d (n : Z) : string :=
  if n <? 0 then NilZero.string_of_int (Z.to_int n)
  else
    let digits := NilZero.string_of_uint (N.to_uint (Z.to_N n)) in
    if Nat.ltb (String.length digits) 2 then ("0" ++ digits)%string
    else digits.

Definition elapsed_hours (seconds : Q) : Z :=
  int_of_Q (floordiv seconds 3600).
Definition elapsed_minutes (seconds : Q) : Z :=
  int_of_Q (floordiv (modulo seconds 3600) 60).
Definition elapsed_secs (seconds : Q) : Z :=
  int_of_Q (modulo seconds 60).

Definition format_elapsed_time (seconds : Q) : string :=
  (format_02d (elapsed_hours seconds) ++ ":"
   ++ format_02d (elapsed_minutes seconds) ++ ":"
   ++ format_02d (elapsed_secs seconds))%string.

(** The two decimal digits of a number below 100. *)
Definition digit (n : Z) : ascii := ascii_of_nat (48 + Z.to_nat n).
Definition two_digits (n : Z) : string :=
  String (digit (n / 10)) (String (digit (n mod 10)) EmptyString).

Definition format_02d_checked (n : Z) : bool :=
  String.eqb (format_02d n) (two_digits n).

(** ** Texts *)

(** [s] is [before ++ pattern ++ after] for some texts around. *)
Definition occurs_in (pattern s : string) : Prop :=
  exists before after, s = (before ++ pattern ++ after)%string.

(** ** Regular expressions

    The two validators of the command line use [re.match] with patterns
    built from literals, character classes, bounded repetition, [+] and
    alternation.  A pattern is a [regex]; matching is by derivatives. *)

Inductive regex :=
| Fail                              (* matches nothing *)
| Eps                               (* the empty text *)
| Class (p : ascii -> bool)         (* one character of a class *)
| Seq (r1 r2 : regex)
| Alt (r1 r2 : regex)
| Star (r : regex).

Fixpoint nullable (r : regex) : bool :=
  match r with
  | Fail => false
  | Eps => true
  | Class _ => false
  | Seq r1 r2 => nullable r1 && nullable r2
  | Alt r1 r2 => nullable r1 || nullable r2
  | Star _ => true
  end.

Fixpoint deriv (c : ascii) (r : regex) : regex :=
  match r with
  | Fail => Fail
  | Eps => Fail
  | Class p => if p c then Eps else Fail
  | Seq r1 r2 =>
      if nullable r1 then Alt (Seq (deriv c r1) r2) (deriv c r2)
      else Seq (deriv c r1) r2
  | Alt r1 r2 => Alt (deriv c r1) (deriv c r2)
  | Star r1 => Seq (deriv c r1) (Star r1)
  end.

(** The whole of [s] matches [r]. *)
Fixpoint matches (r : regex) (s : string) : bool :=
  match s with
  | EmptyString => nullable r
  | String c s' => matches (deriv c r) s'
  end.

(** The texts a pattern denotes. *)
Inductive lang : regex -> string -> Prop :=
| lang_eps : lang Eps EmptyString
| lang_class p c : p c = true -> lang (Class p) (String c EmptyString)
| lang_seq r1 r2 s1 s2 :
    lang r1 s1 -> lang r2 s2 -> lang (Seq r1 r2) (s1 ++ s2)
| lang_alt_l r1 r2 s : lang r1 s -> lang (Alt r1 r2) s
| lang_alt_r r1 r2 s : lang r2 s -> lang (Alt r1 r2) s
| lang_star_nil r : lang (Star r) EmptyString
| lang_star_app r s1 s2 :
    lang r s1 -> lang (Star r) s2 -> lang (Star r) (s1 ++ s2).

(** A literal text. *)
Fixpoint lit (s : string) : regex :=
  match s with
  | EmptyString => Eps
  | String c s' => Seq (Class (Ascii.eqb c)) (lit s')
  end.

(** [r{k}] and [r{0,k}]. *)
Fixpoint exactly (k : nat) (r : regex) : regex :=
  match k with
  | O => Eps
  | S k' => Seq r (exactly k' r)
  end.

Fixpoint at_most (k : nat) (r : regex) : regex :=
  match k with
  | O => Eps
  | S k' => Alt Eps (Seq r (at_most k' r))
  end.

(** [r{m,n}] and [r+]. *)
Definition repeat_range (m n : nat) (r : regex) : regex :=
  Seq (exactly m r) (at_most (n - m) r).
Definition one_or_more (r : regex) : regex := Seq r (Star r).

Definition in_range (lo hi c : ascii) : bool :=
  (N_of_ascii lo <=? N_of_ascii c)%N && (N_of_ascii c <=? N_of_ascii hi)%N.

(** The classes [[a-z0-9]] and [[a-z0-9-]]. *)
Definition lower_alnum (c : ascii) : bool :=
  in_range "a" "z" c || in_range "0" "9" c.
Definition lower_alnum_hyphen (c : ascii) : bool :=
  in_range "a" "z" c || in_range "0" "9" c || Ascii.eqb c "-".

Definition line_feed : string := String (ascii_of_nat 10) EmptyString.

(** [s] without its last character, when that is a line feed. *)
Fixpoint strip_line_feed (s : string) : option string :=
  match s with
  | EmptyString => None
  | String c EmptyString =>
      if Ascii.eqb c (ascii_of_nat 10) then Some EmptyString else None
  | String c s' =>
      match strip_line_feed s' with
      | Some t => Some (String c t)
      | None => None
      end
  end.

(** [re.match("^" + body + "$", s)] without flags: [$] holds at the end of
    the text and also just before a line feed that ends it. *)
Definition re_match_anchored (body : regex) (s : string) : bool :=
  matches body s ||
  match strip_line_feed s with
  | Some t => matches body t
  | None => false
  end.

(** [^https:\/\/[a-z0-9]{3,24}\.(blob|dfs)\.core\.windows\.net$] *)
Definition storage_uri_pattern : regex :=
  Seq (lit "https://")
    (Seq (repeat_range 3 24 (Class lower_alnum))
       (Seq (lit ".")
          (Seq (Alt (lit "blob") (lit "dfs"))
               (lit ".core.windows.net")))).

(** [^[a-z0-9-]+$] *)
Definition container_pattern : regex := one_or_more (Class lower_alnum_hyphen).

(** [validate_storage_uri]; [None] is the [ArgumentTypeError]. *)
Definition validate_storage_uri (uri : string) : option string :=
  if negb (re_match_anchored storage_uri_pattern uri) then None
  else Some uri.

Definition startswith (pattern s : string) : bool := String.prefix pattern s.

Fixpoint endswith_char (c : ascii) (s : string) : bool :=
  match s with
  | EmptyString => false
  | String x EmptyString => Ascii.eqb x c
  | String _ s' => endswith_char c s'
  end.

(** [validate_container_name]; [None] is one of its three
    [ArgumentTypeError]s. *)
Definition validate_container_name (name : string) : option string :=
  if negb (Nat.leb 3 (String.length name)
           && Nat.leb (String.length name) 63) then None
  else if negb (re_match_anchored container_pattern name) then None
  else if startswith "-" name || endswith_char "-" name then None
  else Some name.

(** ** The credential chosen by [__init__] *)

(** [s.split(sep)] for a separator that is not empty; [skip] characters of
    a separator just recognised are still to be passed over. *)
Fixpoint split_str (sep : string) (skip : nat) (s : string) : list string :=
  match s with
  | EmptyString => [EmptyString]
  | String c s' =>
      match skip with
      | S k => split_str sep k s'
      | O =>
          if String.prefix sep s
          then EmptyString :: split_str sep (String.length sep - 1) s'
          else match split_str sep 0 s' with
               | seg :: rest => String c seg :: rest
               | [] => [String c EmptyString]
               end
      end
  end.

Inductive credential :=
| NamedKey (account_name access_key : string)
| Default.

(** [storage_uri.split('//')[1].split('.')[0]]; [None] is the
    [IndexError] of [[1]]. *)
Definition account_name (storage_uri : string) : option string :=
  after <- nth_error (split_str "//" 0 storage_uri) 1 ;;
  nth_error (split_str "." 0 after) 0.

(** The credential [__init__] builds; an empty access key is falsy, like
    [None]. *)
Definition make_credential (storage_uri : string)
  (access_key : option string) : option credential :=
  match access_key with
  | None => Some Default
  | Some EmptyString => Some Default
  | Some key => name <- account_name storage_uri ;; Some (NamedKey name key)
  end.

Fixpoint string_forallb (p : ascii -> bool) (s : string) : bool :=
  match s with
  | EmptyString => true
  | String c s' => p c && string_forallb p s'
  end.

(** ** What the specification says of the error rate *)








(** * Theorems *)

(** ** Floats on the ranges the manager uses *)

Lemma all_upto_spec (n : nat) (P : Z -> bool) :
  all_upto n P = true ->
  forall c, 0 <= c <= Z.of_nat n -> P c = true.
Proof.
  unfold all_upto. intros H c Hc.
  rewrite forallb_forall in H. apply H.
  apply in_map_iff. exists (Z.to_nat c). split.
  - apply Z2Nat.id. lia.
  - apply in_seq. lia.
Qed.

Lemma backoff_factor_value :
  backoff_factor = S754_finite false 4503599627370496 (-53).
Proof. reflexivity. Qed.

Lemma recovery_factor_value :
  recovery_factor = S754_finite false 5404319552844595 (-52).
Proof. reflexivity. Qed.

Lemma error_threshold_value :
  error_threshold = S754_finite false 7205759403792794 (-56).
Proof. reflexivity. Qed.

(** [int(c * 0.5)] is [c // 2] on the whole range of ceilings. *)
Lemma backoff_exact (c : Z) :
  0 <= c <= max_concurrency ->
  backoff c = Some (Z.max (c / 2) min_concurrency).
Proof.
  intros Hc.
  assert (H : backoff_checked c = true).
  { apply (all_upto_spec 600); [vm_compute; reflexivity | exact Hc]. }
  unfold backoff_checked in H.
  destruct (backoff c) as [n|]; [|discriminate].
  apply Z.eqb_eq in H. now subst.
Qed.

(** [int(c * 1.2)] is [6c // 5] on the whole range of ceilings: the product
    is truncated, and the rounding of [1.2] never crosses an integer. *)
Lemma recover_exact (c : Z) :
  0 <= c <= max_concurrency ->
  recover c = Some (Z.min (c * 6 / 5) max_concurrency).
Proof.
  intros Hc.
  assert (H : recover_checked c = true).
  { apply (all_upto_spec 600); [vm_compute; reflexivity | exact Hc]. }
  unfold recover_checked in H.
  destruct (recover c) as [n|]; [|discriminate].
  apply Z.eqb_eq in H. now subst.
Qed.

Lemma rate_exact (n r : Z) :
  1 <= n <= Z.of_nat window_maxlen -> 0 <= r <= n ->
  exists x, PyFloat.int_truediv r n = Some x /\
            PyFloat.leb PyFloat.zero x = true /\
            PyFloat.leb x PyFloat.one = true /\
            (PyFloat.ltb error_threshold x = true <-> n < 10 * r).
Proof.
  intros Hn Hr.
  assert (H : rates_checked n = true).
  { apply (all_upto_spec 100); [vm_compute; reflexivity | ].
    unfold window_maxlen in Hn. lia. }
  unfold rates_checked in H. apply orb_true_iff in H.
  destruct H as [H|H]; [apply Z.eqb_eq in H; lia|].
  assert (H' : rate_checked n r = true).
  { apply (all_upto_spec _ _ H). lia. }
  unfold rate_checked in H'.
  destruct (PyFloat.int_truediv r n) as [x|]; [|discriminate].
  exists x. apply andb_true_iff in H'. destruct H' as [H' H3].
  apply andb_true_iff in H'. destruct H' as [H1 H2].
  apply Bool.eqb_prop in H3. rewrite H3, Z.ltb_lt.
  repeat split; trivial.
Qed.

(** ** The sliding window *)

Section Window.

Variable now : time.

Lemma too_old_spec (e : time * bool) :
  too_old now e = true <-> (fst e + window_duration < now)%Q.
Proof.
  unfold too_old, Qlt_bool. rewrite negb_true_iff.
  generalize window_duration as d. intros d.
  split.
  - intros H. destruct (Qlt_le_dec (fst e + d) now) as [|Hle];
      [assumption|].
    assert (Hb : Qle_bool (now - fst e) d = true)
      by (apply Qle_bool_iff; lra).
    congruence.
  - intros H. destruct (Qle_bool (now - fst e) d) eqn:Hb;
      [|reflexivity].
    apply Qle_bool_iff in Hb. lra.
Qed.


Lemma popleft_old_length (w : window) :
  (length (popleft_old now w) <= length w)%nat.
Proof.
  induction w as [|e w IH]; simpl; [lia|].
  destruct (too_old now e); simpl; lia.
Qed.

Lemma popleft_old_head (w : window) :
  Forall (fun e => too_old now e = false) (firstn 1 (popleft_old now w)).
Proof.
  induction w as [|e w IH]; simpl; [constructor|].
  destruct (too_old now e) eqn:He; [exact IH|].
  simpl. constructor; [exact He|constructor].
Qed.




Lemma popleft_old_incl (w : window) (e : time * bool) :
  In e (popleft_old now w) -> In e w.
Proof.
  induction w as [|x w IH]; simpl; [tauto|].
  destruct (too_old now x); simpl; tauto.
Qed.

End Window.




Lemma deque_append_length (w : window) (x : time * bool) :
  (length w <= window_maxlen)%nat ->
  (length (deque_append x w) <= window_maxlen)%nat.
Proof.
  intros H. unfold deque_append.
  destruct (Nat.ltb (length w) window_maxlen) eqn:Hlt.
  - apply Nat.ltb_lt in Hlt. rewrite length_app. simpl. lia.
  - rewrite length_app. unfold window_maxlen in *.
    destruct w; simpl length in *; lia.
Qed.


(** [get_error_rate] never raises on a window a [deque(maxlen=100)] can
    hold, and its result is a quotient of two counts of the window it
    leaves. *)
Lemma get_error_rate_total (now : time) (w : window) :
  (length w <= window_maxlen)%nat ->
  exists rate,
    get_error_rate now w = Some (rate, popleft_old now w) /\
    PyFloat.leb PyFloat.zero rate = true /\
    PyFloat.leb rate PyFloat.one = true /\
    (popleft_old now w = [] -> rate = PyFloat.zero) /\
    (popleft_old now w <> [] ->
     PyFloat.int_truediv
       (Z.of_nat (length (filter (recent_error now) (popleft_old now w))))
       (Z.of_nat (length (popleft_old now w))) = Some rate).
Proof.
  intros Hlen. unfold get_error_rate.
  pose proof (popleft_old_length now w) as Hp.
  destruct (popleft_old now w) as [|e w'] eqn:Hw.
  - exists PyFloat.zero. repeat split; trivial. congruence.
  - set (k := e :: w') in *.
    pose proof (filter_length_le (recent_error now) k) as Hf.
    destruct (rate_exact (Z.of_nat (length k))
                (Z.of_nat (length (filter (recent_error now) k))))
      as (x & Hx & H0 & H1 & _).
    + unfold k, window_maxlen in *. simpl length in *. lia.
    + lia.
    + rewrite Hx. exists x. repeat split; trivial. discriminate.
Qed.

(** ** The controller *)

Lemma capacity_resize (n : Z) (g g' : Dispatcher.t) :
  Dispatcher.resize n g = Some g' -> Dispatcher.capacity g' = n.
Proof.
  unfold Dispatcher.resize, Dispatcher.new_semaphore.
  destruct (n <? 0); [discriminate|].
  intros H. injection H as <-. unfold Dispatcher.capacity. simpl.
  rewrite nth_error_app2 by lia. now rewrite Nat.sub_diag.
Qed.

Lemma set_concurrency_total (n : Z) (st : RestoreManager) :
  0 <= n ->
  exists st', set_concurrency n st = Some st' /\
    current_concurrency st' = n /\
    Dispatcher.capacity (sem st') = n /\
    error_window st' = error_window st /\
    last_adjustment st' = last_adjustment st /\
    last_error_time st' = last_error_time st /\
    restored_count st' = restored_count st /\
    failed_count st' = failed_count st.
Proof.
  intros Hn. unfold set_concurrency.
  destruct (Dispatcher.resize n (sem st)) as [g|] eqn:Hg.
  - eexists. split; [reflexivity|]. simpl.
    repeat split; trivial. now apply capacity_resize in Hg.
  - unfold Dispatcher.resize, Dispatcher.new_semaphore in Hg.
    destruct (n <? 0) eqn:Hneg; [apply Z.ltb_lt in Hneg; lia|discriminate].
Qed.

Lemma exact_ceiling_bounds (r : PyFloat.float) (d : Q) (c : Z) :
  min_concurrency <= c <= max_concurrency ->
  min_concurrency <= exact_ceiling r d c <= max_concurrency.
Proof.
  unfold exact_ceiling, min_concurrency, max_concurrency. intros Hc.
  destruct (PyFloat.ltb error_threshold r);
    [Z.div_mod_to_equations; lia|].
  destruct (Qlt_bool recovery_interval d && (c <? 600));
    Z.div_mod_to_equations; lia.
Qed.

(** A tick that is not debounced: it never raises on a well-formed state,
    prunes the window, moves the ceiling by [exact_ceiling] and stamps the
    adjustment time. *)
Lemma adjust_concurrency_tick (now : time) (st : RestoreManager) :
  well_formed st ->
  Qlt_bool (now - last_adjustment st) 1 = false ->
  exists rate st',
    get_error_rate now (error_window st)
      = Some (rate, popleft_old now (error_window st)) /\
    adjust_concurrency now st = Some st' /\
    current_concurrency st'
      = exact_ceiling rate (now - last_error_time st)
                      (current_concurrency st) /\
    error_window st' = popleft_old now (error_window st) /\
    last_adjustment st' = now /\
    last_error_time st' = last_error_time st /\
    restored_count st' = restored_count st /\
    failed_count st' = failed_count st /\
    well_formed st'.
Proof.
  intros [Hc Hw Hg] Hdeb.
  destruct (get_error_rate_total now (error_window st) Hw)
    as (rate & Hrate & _).
  pose proof (popleft_old_length now (error_window st)) as Hlen.
  pose proof (exact_ceiling_bounds rate (now - last_error_time st) _ Hc)
    as Hb.
  exists rate. unfold adjust_concurrency. rewrite Hdeb, Hrate.
  unfold exact_ceiling in *. simpl.
  set (c := current_concurrency st) in *.
  assert (Hc0 : 0 <= c <= max_concurrency)
    by (unfold min_concurrency in Hc; lia).
  destruct (PyFloat.ltb error_threshold rate).
  - rewrite (backoff_exact c Hc0).
    set (n := Z.max (c / 2) min_concurrency) in *.
    destruct (n =? c) eqn:Hn.
    + apply Z.eqb_eq in Hn. eexists. split; [reflexivity|]. simpl.
      repeat split; trivial; simpl; fold c; lia.
    + destruct (set_concurrency_total n (set_error_window
                 (popleft_old now (error_window st)) st))
        as (st' & -> & H1 & H2 & H3 & H4 & H5 & H6 & H7).
      { unfold min_concurrency in Hb. lia. }
      eexists. split; [reflexivity|]. simpl.
      repeat split; trivial; simpl; rewrite ?H1, ?H3; simpl; lia.
  - destruct (Qlt_bool recovery_interval (now - last_error_time st)
              && (c <? max_concurrency)).
    + rewrite (recover_exact c Hc0).
      set (n := Z.min (c * 6 / 5) max_concurrency) in *.
      destruct (n =? c) eqn:Hn.
      * apply Z.eqb_eq in Hn. eexists. split; [reflexivity|]. simpl.
        repeat split; trivial; simpl; fold c; lia.
      * destruct (set_concurrency_total n (set_error_window
                   (popleft_old now (error_window st)) st))
          as (st' & -> & H1 & H2 & H3 & H4 & H5 & H6 & H7).
        { unfold min_concurrency in Hb. lia. }
        eexists. split; [reflexivity|]. simpl.
        repeat split; trivial; simpl; rewrite ?H1, ?H3; simpl; lia.
    + eexists. split; [reflexivity|]. simpl.
      repeat split; trivial; simpl; fold c; lia.
Qed.

(** What a manager step does to [self.sem]: nothing, or the dispatcher's
    [Resize] to the new ceiling. *)
Lemma manager_resizes_dispatcher (st st' : RestoreManager) (ev : event) :
  step st ev = Some st' ->
  sem st' = sem st \/
  Dispatcher.step (sem st) (Dispatcher.Resize (current_concurrency st')) = Some (sem st').
Proof.
  assert (Hset : forall n s s', set_concurrency n s = Some s' ->
            Dispatcher.resize n (sem s) = Some (sem s') /\
            current_concurrency s' = n).
  { intros n s s'. unfold set_concurrency.
    destruct (Dispatcher.resize n (sem s)) as [g|]; [|discriminate].
    intros [= <-]. now split. }
  destruct ev as [now|item r now|now]; simpl.
  - unfold adjust_concurrency.
    destruct (Qlt_bool (now - last_adjustment st) 1);
      [intros [= <-]; now left|].
    destruct (get_error_rate now (error_window st)) as [[rate w]|];
      [|discriminate].
    cbn [fst snd current_concurrency last_error_time set_error_window].
    destruct (PyFloat.ltb error_threshold rate).
    + destruct (backoff (current_concurrency st)) as [n|]; [|discriminate].
      destruct (n =? current_concurrency st); [intros [= <-]; now left|].
      destruct (set_concurrency n _) as [s1|] eqn:Hs1; [|discriminate].
      intros [= <-]. apply Hset in Hs1. destruct Hs1 as [Hs1 Hn].
      right. cbn [Dispatcher.step sem current_concurrency set_last_adjustment
                  set_error_window] in *.
      now rewrite Hn.
    + destruct (Qlt_bool recovery_interval (now - last_error_time st)
                && (current_concurrency st <? max_concurrency));
        [|intros [= <-]; now left].
      destruct (recover (current_concurrency st)) as [n|]; [|discriminate].
      destruct (n =? current_concurrency st); [intros [= <-]; now left|].
      destruct (set_concurrency n _) as [s1|] eqn:Hs1; [|discriminate].
      intros [= <-]. apply Hset in Hs1. destruct Hs1 as [Hs1 Hn].
      right. cbn [Dispatcher.step sem current_concurrency set_last_adjustment
                  set_error_window] in *.
      now rewrite Hn.
  - intros [= <-]. left. unfold restore_item.
    destruct r as [|e]; [reflexivity|].
    now destruct (negb (is_conflict e)).
  - destruct (get_error_rate now (error_window st)); [|discriminate].
    intros [= <-]. now left.
Qed.

Lemma Qlt_bool_iff (x y : Q) : Qlt_bool x y = true <-> (x < y)%Q.
Proof.
  unfold Qlt_bool. rewrite negb_true_iff. split.
  - intros H. destruct (Qlt_le_dec x y) as [|Hle]; [assumption|].
    apply Qle_bool_iff in Hle. congruence.
  - intros H. destruct (Qle_bool y x) eqn:Hb; [|reflexivity].
    apply Qle_bool_iff in Hb. lra.
Qed.

Lemma init_well_formed (t0 : time) : well_formed (init t0).
Proof.
  constructor; simpl.
  - unfold min_concurrency, initial_concurrency, max_concurrency. lia.
  - unfold window_maxlen. lia.
  - reflexivity.
Qed.

Lemma restore_item_well_formed (item : Item) (r : outcome) (now : time)
  (st : RestoreManager) :
  well_formed st -> well_formed (state_after (restore_item item r now st)).
Proof.
  intros [Hc Hw Hg]. unfold restore_item.
  destruct r as [|error_str]; [constructor; assumption|].
  destruct (negb (is_conflict error_str)); constructor; simpl; trivial.
  now apply deque_append_length.
Qed.

Lemma step_well_formed (st : RestoreManager) (ev : event) :
  well_formed st -> exists st', step st ev = Some st' /\ well_formed st'.
Proof.
  intros Hwf. destruct ev as [now|item r now|now]; simpl.
  - destruct (Qlt_bool (now - last_adjustment st) 1) eqn:Hdeb.
    + exists st. unfold adjust_concurrency. rewrite Hdeb. now split.
    + destruct (adjust_concurrency_tick now st Hwf Hdeb)
        as (rate & st' & _ & Hst' & H). exists st'. split; [assumption|].
      apply H.
  - eexists. split; [reflexivity|]. now apply restore_item_well_formed.
  - destruct Hwf as [Hc Hw Hg].
    destruct (get_error_rate_total now (error_window st) Hw)
      as (rate & -> & _).
    eexists. split; [reflexivity|]. constructor; simpl; trivial.
    pose proof (popleft_old_length now (error_window st)). lia.
Qed.

Lemma run_well_formed (evs : list event) (st : RestoreManager) :
  well_formed st -> exists st', run evs st = Some st' /\ well_formed st'.
Proof.
  revert st. induction evs as [|ev evs IH]; intros st Hwf; simpl.
  - now exists st.
  - destruct (step_well_formed st ev Hwf) as (st1 & -> & Hwf1).
    now apply IH.
Qed.

(** C3. Whatever controller ticks, restore completions and status reports
    follow [__init__], in any order and at any clock readings, no step
    raises and the ceiling of the state reached lies between
    [min_concurrency] (10) and [max_concurrency] (600). *)
Theorem ceiling_stays_within_bounds (t0 : time) (evs : list event) :
  current_concurrency (init t0) = 100 /\
  exists st, run evs (init t0) = Some st /\
             min_concurrency <= current_concurrency st <= max_concurrency.
Proof.
  split; [reflexivity|].
  destruct (run_well_formed evs (init t0) (init_well_formed t0))
    as (st & Hrun & Hwf).
  exists st. split; [assumption|]. apply Hwf.
Qed.

Lemma next_ceiling_tick (now : time) (st : RestoreManager)
  (rate : PyFloat.float) (w : window) :
  well_formed st ->
  Qlt_bool (now - last_adjustment st) 1 = false ->
  get_error_rate now (error_window st) = Some (rate, w) ->
  next_ceiling now st
    = Some (exact_ceiling rate (now - last_error_time st)
                          (current_concurrency st)).
Proof.
  intros Hwf Hdeb Hrate.
  destruct (adjust_concurrency_tick now st Hwf Hdeb)
    as (rate' & st' & Hrate' & Hst' & Hc & _).
  rewrite Hrate in Hrate'. injection Hrate' as -> _.
  unfold next_ceiling. rewrite Hst'. now rewrite Hc.
Qed.

(** C4. On a tick that is not debounced and reads an error rate above
    [0.1], the ceiling becomes [max(current // 2, min_concurrency)],
    whatever the time of the last server error and whether or not the
    recovery branch would have applied; the tick assigns the ceiling at
    most once, re-binding [self.sem] at most once with it. *)
Theorem backoff_on_high_error_rate (now : time) (st : RestoreManager)
  (rate : PyFloat.float) (w : window) :
  well_formed st ->
  Qlt_bool (now - last_adjustment st) 1 = false ->
  get_error_rate now (error_window st) = Some (rate, w) ->
  PyFloat.ltb error_threshold rate = true ->
  next_ceiling now st
    = Some (Z.max (current_concurrency st / 2) min_concurrency) /\
  exists st',
    adjust_concurrency now st = Some st' /\
    (sem st' = sem st \/
     Dispatcher.step (sem st) (Dispatcher.Resize (current_concurrency st'))
       = Some (sem st')).
Proof.
  intros Hwf Hdeb Hrate Hhigh. split.
  - rewrite (next_ceiling_tick now st rate w Hwf Hdeb Hrate).
    unfold exact_ceiling. now rewrite Hhigh.
  - destruct (step_well_formed st (Tick now) Hwf) as (st' & Hstep & _).
    exists st'. split; [exact Hstep|].
    now apply (manager_resizes_dispatcher st st' (Tick now)).
Qed.

Lemma after_one_error_well_formed : well_formed after_one_error.
Proof.
  apply restore_item_well_formed, init_well_formed.
Defined.

Lemma backoff_on_high_error_rate_witness :
  Qlt_bool (1007 - last_adjustment after_one_error) 1 = false /\
  Qlt_bool recovery_interval (1007 - last_error_time after_one_error) = true /\
  next_ceiling 1007%Q after_one_error = Some 50.
Proof.
  split; [reflexivity|]. split; [reflexivity|].
  apply (backoff_on_high_error_rate 1007%Q after_one_error
           PyFloat.one [(1000%Q, true)]).
  - exact after_one_error_well_formed.
  - reflexivity.
  - reflexivity.
  - reflexivity.
Defined.

(** C1, as the specification words it, fails on the code in two ways.
    After [three_errors] the ceiling is 12, the last server error is 11
    seconds old at 1011 and the window is empty: the tick yields
    [int(12 * 1.2) = 14], not [ceil(14.4) = 15].  And one second after
    [__init__] plus one server error, at 1007, the error is 7 seconds old
    yet still in the window: the tick halves the ceiling to 50 instead of
    raising it to 120. *)
Lemma recovery_ceiling_counterexample :
  (run three_errors started = Some low_ceiling /\
   current_concurrency low_ceiling = 12 /\
   Qlt_bool (1011 - last_adjustment low_ceiling) 1 = false /\
   Qlt_bool recovery_interval (1011 - last_error_time low_ceiling) = true /\
   (current_concurrency low_ceiling <? max_concurrency) = true /\
   next_ceiling 1011%Q low_ceiling = Some 14 /\
   next_ceiling 1011%Q low_ceiling
     <> Some (spec_recovery (current_concurrency low_ceiling))) /\
  (Qlt_bool (1007 - last_adjustment after_one_error) 1 = false /\
   Qlt_bool recovery_interval (1007 - last_error_time after_one_error) = true /\
   (current_concurrency after_one_error <? max_concurrency) = true /\
   next_ceiling 1007%Q after_one_error = Some 50 /\
   next_ceiling 1007%Q after_one_error
     <> Some (spec_recovery (current_concurrency after_one_error))).
Proof.
  repeat match goal with |- _ /\ _ => split end;
    vm_compute; try reflexivity; discriminate.
Qed.

(** C1, amended. On a tick that is not debounced and reads an error rate
    of at most [0.1], with the last server error older than
    [recovery_interval] and the ceiling below [max_concurrency], the
    ceiling becomes [min(current * 6 // 5, max_concurrency)]: the product
    by [1.2] is truncated by [int()], not rounded up. *)
Theorem recovery_truncates (now : time) (st : RestoreManager)
  (rate : PyFloat.float) (w : window) :
  well_formed st ->
  Qlt_bool (now - last_adjustment st) 1 = false ->
  get_error_rate now (error_window st) = Some (rate, w) ->
  PyFloat.ltb error_threshold rate = false ->
  (recovery_interval < now - last_error_time st)%Q ->
  current_concurrency st < max_concurrency ->
  next_ceiling now st
    = Some (Z.min (current_concurrency st * 6 / 5) max_concurrency).
Proof.
  intros Hwf Hdeb Hrate Hlow Hold Hc.
  rewrite (next_ceiling_tick now st rate w Hwf Hdeb Hrate).
  unfold exact_ceiling. rewrite Hlow.
  apply Qlt_bool_iff in Hold. apply Z.ltb_lt in Hc.
  now rewrite Hold, Hc.
Qed.

Lemma low_ceiling_well_formed : well_formed low_ceiling.
Proof.
  destruct (run_well_formed three_errors started (init_well_formed _))
    as (st & Hrun & Hwf).
  unfold low_ceiling. now rewrite Hrun.
Defined.

Lemma recovery_truncates_witness :
  (recovery_interval < 1011 - last_error_time low_ceiling)%Q /\
  current_concurrency low_ceiling < max_concurrency /\
  next_ceiling 1011%Q low_ceiling = Some 14.
Proof.
  assert (Hold : (recovery_interval < 1011 - last_error_time low_ceiling)%Q)
    by (apply Qlt_bool_iff; reflexivity).
  assert (Hc : current_concurrency low_ceiling < max_concurrency)
    by reflexivity.
  split; [exact Hold|]. split; [exact Hc|].
  apply (recovery_truncates 1011%Q low_ceiling PyFloat.zero []).
  - exact low_ceiling_well_formed.
  - reflexivity.
  - reflexivity.
  - reflexivity.
  - exact Hold.
  - exact Hc.
Defined.

(** C10. [__init__] sets [last_error_time] to 0.  While it is still 0, the
    age of the last server error is the clock reading itself, so on any
    clock past 5 seconds after the epoch the first tick that is not
    debounced, reads an error rate of at most [0.1] and finds the ceiling
    below [max_concurrency] raises the ceiling at once. *)
Theorem first_tick_recovers (now : time) (st : RestoreManager)
  (rate : PyFloat.float) (w : window) :
  well_formed st ->
  last_error_time st = 0%Q ->
  Qlt_bool (now - last_adjustment st) 1 = false ->
  get_error_rate now (error_window st) = Some (rate, w) ->
  PyFloat.ltb error_threshold rate = false ->
  current_concurrency st < max_concurrency ->
  (recovery_interval < now)%Q ->
  (forall t0, last_error_time (init t0) = 0%Q) /\
  exists n, next_ceiling now st = Some n /\
            n = Z.min (current_concurrency st * 6 / 5) max_concurrency /\
            current_concurrency st < n.
Proof.
  intros Hwf Hinit Hdeb Hrate Hlow Hc Hnow.
  split; [reflexivity|].
  rewrite (next_ceiling_tick now st rate w Hwf Hdeb Hrate).
  unfold exact_ceiling. rewrite Hlow, Hinit.
  assert (Hold : Qlt_bool recovery_interval (now - 0) = true)
    by (apply Qlt_bool_iff; lra).
  rewrite Hold. pose proof Hc as Hc'. apply Z.ltb_lt in Hc'. rewrite Hc'.
  simpl. eexists. split; [reflexivity|]. split; [reflexivity|].
  destruct Hwf as [Hb _ _].
  unfold min_concurrency, max_concurrency in *.
  Z.div_mod_to_equations. lia.
Qed.

Lemma first_tick_recovers_witness :
  (forall t0, last_error_time (init t0) = 0%Q) /\
  exists n, next_ceiling 1001%Q started = Some n /\
            n = Z.min (current_concurrency started * 6 / 5) max_concurrency /\
            current_concurrency started < n.
Proof.
  apply (first_tick_recovers 1001%Q started PyFloat.zero []).
  - exact (init_well_formed 1000%Q).
  - reflexivity.
  - reflexivity.
  - reflexivity.
  - reflexivity.
  - reflexivity.
  - reflexivity.
Defined.

(** ** The window along a run *)



Lemma within_excludes (now : time) (w : window) (e : Q * bool) (eps : Q) :
  (0 < eps)%Q -> (now == fst e + window_duration + eps)%Q ->
  ~ In e (within now w).
Proof.
  intros Heps Hnow Hin. unfold within in Hin.
  apply filter_In in Hin. destruct Hin as [_ Hyoung].
  assert (Hold : too_old now e = true) by (apply too_old_spec; lra).
  rewrite Hold in Hyoung. discriminate.
Qed.

(** *** The window against what was recorded *)

















(** ** The worker *)

(** C6. A failure whose text carries the conflict signature
    [BlobAlreadyExists] changes nothing: [failed_count], the error window
    and [last_error_time] keep their values, as does the rest of the state,
    and nothing is printed. *)
Theorem conflict_is_benign (item : Item) (error_str : string) (now : time)
  (st : RestoreManager) :
  is_conflict error_str = true ->
  let res := restore_item item (Raised error_str) now st in
  failed_count (state_after res) = failed_count st /\
  error_window (state_after res) = error_window st /\
  last_error_time (state_after res) = last_error_time st /\
  printed res = [] /\
  state_after res = st.
Proof.
  intros Hconflict. unfold restore_item. rewrite Hconflict. simpl.
  repeat split.
Qed.

Lemma conflict_is_benign_witness :
  is_conflict conflict_text = true /\
  let res := restore_item sample_item (Raised conflict_text) 1000 started in
  failed_count (state_after res) = failed_count started /\
  error_window (state_after res) = error_window started /\
  last_error_time (state_after res) = last_error_time started /\
  printed res = [] /\
  state_after res = started.
Proof.
  split; [reflexivity|].
  apply (conflict_is_benign sample_item conflict_text 1000 started).
  reflexivity.
Defined.

(** C9. [restore_item] returns [True] exactly when the restore call
    returned.  A conflict and a counted failure both return [False]: the
    conflict leaves the state untouched and prints nothing, the counted
    failure increments [failed_count], appends to the window and prints two
    lines, and the returned value does not tell them apart. *)
Theorem restore_item_returned (item : Item) (r : outcome) (now : time)
  (st : RestoreManager) (conflict failure : string) :
  is_conflict conflict = true ->
  is_conflict failure = false ->
  (returned (restore_item item r now st) = true <-> r = Returned) /\
  returned (restore_item item (Raised conflict) now st) = false /\
  returned (restore_item item (Raised failure) now st) = false /\
  state_after (restore_item item (Raised conflict) now st) = st /\
  printed (restore_item item (Raised conflict) now st) = [] /\
  failed_count (state_after (restore_item item (Raised failure) now st))
    = failed_count st + 1 /\
  error_window (state_after (restore_item item (Raised failure) now st))
    = deque_append (now, is_5xx_error failure) (error_window st) /\
  printed (restore_item item (Raised failure) now st)
    = failure_log item failure.
Proof.
  intros Hconflict Hfailure. unfold restore_item.
  rewrite Hconflict, Hfailure. simpl. repeat split; trivial.
  - destruct r as [|e]; simpl; [reflexivity|].
    destruct (negb (is_conflict e)); discriminate.
  - now intros ->.
Qed.

Lemma restore_item_returned_witness :
  is_conflict conflict_text = true /\
  is_conflict busy_text = false /\
  returned (restore_item sample_item (Raised conflict_text) 1000 started)
    = false /\
  returned (restore_item sample_item (Raised busy_text) 1000 started)
    = false.
Proof.
  split; [reflexivity|]. split; [reflexivity|].
  pose proof (restore_item_returned sample_item Returned 1000 started
                conflict_text busy_text eq_refl eq_refl) as H.
  split; apply H.
Defined.

(** ** The batch plan *)

Section Batches.

Context {A : Type}.
Variable l : list A.
Variable bs : nat.
Hypothesis bs_pos : (0 < bs)%nat.

Lemma chunk_length (i : nat) :
  length (chunk l bs i) = Nat.min bs (length l - i).
Proof.
  unfold chunk, slice. rewrite length_firstn, length_skipn.
  f_equal. lia.
Qed.

Lemma chunk_skipn (i : nat) : (chunk l bs i ++ skipn (i + bs) l = skipn i l)%list.
Proof.
  unfold chunk, slice. replace (i + bs - i)%nat with bs by lia.
  rewrite Nat.add_comm, <- skipn_skipn. apply firstn_skipn.
Qed.

(** The slices at the indexes of the range, glued back, are the list from
    the first index on. *)
Lemma concat_chunks (fuel : nat) :
  forall i, (length l <= i + fuel)%nat ->
    concat (map (chunk l bs) (range_from fuel i (length l) bs)) = skipn i l.
Proof.
  induction fuel as [|fuel IH]; intros i Hfuel; simpl.
  - symmetry. apply skipn_all2. lia.
  - destruct (Nat.ltb i (length l)) eqn:Hi.
    + simpl. rewrite IH by lia. apply chunk_skipn.
    + apply Nat.ltb_ge in Hi. symmetry. now apply skipn_all2.
Qed.

(** Every slice but the last is full; the last one is not empty. *)
Lemma chunks_shape (fuel : nat) :
  forall i, (i < length l)%nat -> (length l <= i + fuel)%nat ->
    exists full last,
      map (chunk l bs) (range_from fuel i (length l) bs) = (full ++ [last])%list /\
      Forall (fun b => length b = bs) full /\
      (1 <= length last <= bs)%nat.
Proof.
  induction fuel as [|fuel IH]; intros i Hi Hfuel; [lia|].
  simpl. pose proof Hi as Hlt. apply Nat.ltb_lt in Hlt. rewrite Hlt.
  cbn [map].
  destruct (Nat.ltb (i + bs) (length l)) eqn:Hnext.
  - apply Nat.ltb_lt in Hnext.
    destruct (IH (i + bs)%nat Hnext) as (full & last & -> & Hfull & Hlast);
      [lia|].
    exists (chunk l bs i :: full), last. simpl. repeat split; try lia.
    constructor; [|assumption]. rewrite chunk_length. lia.
  - apply Nat.ltb_ge in Hnext.
    exists [], (chunk l bs i). simpl.
    assert (Hrest : range_from fuel (i + bs) (length l) bs = []).
    { destruct fuel; simpl; [reflexivity|].
      apply Nat.ltb_ge in Hnext. now rewrite Hnext. }
    rewrite Hrest. simpl. rewrite chunk_length.
    repeat split; try constructor; lia.
Qed.

End Batches.

Lemma batch_size_pos (n : nat) : (0 < batch_size n)%nat.
Proof. unfold batch_size. lia. Qed.

Lemma batch_size_clamp (n : nat) : batch_size n = clamp (n / 3) 10 1000.
Proof.
  unfold batch_size, clamp.
  destruct (Nat.ltb (n / 3) 10) eqn:H1.
  - apply Nat.ltb_lt in H1. lia.
  - apply Nat.ltb_ge in H1.
    destruct (Nat.ltb 1000 (n / 3)) eqn:H2.
    + apply Nat.ltb_lt in H2. lia.
    + apply Nat.ltb_ge in H2. lia.
Qed.

(** For a list that is not empty the comprehension already yields a batch:
    the fallback of [run_async] never fires. *)
Lemma make_batches_chunks {A : Type} (l : list A) :
  l <> [] ->
  make_batches l
  = map (chunk l (batch_size (length l)))
        (range 0 (length l) (batch_size (length l))).
Proof.
  intros Hne. unfold make_batches. cbv zeta.
  change (fun i => slice l i (i + batch_size (length l)))
    with (chunk l (batch_size (length l))).
  destruct (chunks_shape l (batch_size (length l)) (batch_size_pos _)
              (length l) 0%nat) as (full & last & Heq & _).
  - destruct l; [congruence|simpl; lia].
  - lia.
  - unfold range. rewrite Heq.
    destruct full; simpl; destruct l; congruence.
Qed.

Lemma concat_make_batches {A : Type} (l : list A) :
  concat (make_batches l) = l.
Proof.
  destruct l as [|x l]; [reflexivity|].
  rewrite make_batches_chunks by discriminate.
  unfold range. rewrite concat_chunks.
  - reflexivity.
  - apply batch_size_pos.
  - lia.
Qed.

(** C7. For a list of [n > 0] items the batch size is
    [clamp(n // 3, 10, 1000)], the batches glued together are the list, every
    batch but the last has exactly that size and the last has between one
    item and that size; fewer than 10 items make one batch, and 30 items
    make 3 batches of size 10. *)
Theorem batches_partition {A : Type} (l : list A) :
  l <> [] ->
  batch_size (length l) = clamp (length l / 3) 10 1000 /\
  concat (make_batches l) = l /\
  (exists full last,
     make_batches l = (full ++ [last])%list /\
     Forall (fun b => length b = batch_size (length l)) full /\
     (1 <= length last <= batch_size (length l))%nat) /\
  ((length l < 10)%nat -> make_batches l = [l]) /\
  (length l = 30%nat ->
   batch_size (length l) = 10%nat /\ length (make_batches l) = 3%nat).
Proof.
  intros Hne.
  assert (Hshape : exists full last,
     make_batches l = (full ++ [last])%list /\
     Forall (fun b => length b = batch_size (length l)) full /\
     (1 <= length last <= batch_size (length l))%nat).
  { rewrite make_batches_chunks by assumption. unfold range.
    apply chunks_shape.
    - apply batch_size_pos.
    - destruct l; [congruence|simpl; lia].
    - lia. }
  split; [apply batch_size_clamp|].
  split; [apply concat_make_batches|].
  split; [exact Hshape|]. split.
  - intros Hsmall.
    destruct Hshape as (full & last & Heq & Hfull & Hlast).
    pose proof (concat_make_batches l) as Hcat. rewrite Heq in Hcat.
    destruct full as [|b full].
    + rewrite Heq. simpl in *. rewrite app_nil_r in Hcat. now subst.
    + exfalso. apply Forall_inv in Hfull. rename Hfull into Hb.
      assert (Hlen : (length b <= length l)%nat).
      { rewrite <- Hcat. simpl. rewrite length_app. lia. }
      unfold batch_size in Hb. lia.
  - intros H30. rewrite make_batches_chunks by assumption.
    rewrite length_map, H30. split; reflexivity.
Qed.

Lemma batches_partition_witness :
  seq 0 30 <> [] /\
  batch_size (length (seq 0 30)) = 10%nat /\
  length (make_batches (seq 0 30)) = 3%nat /\
  concat (make_batches (seq 0 30)) = seq 0 30.
Proof.
  assert (Hne : seq 0 30 <> []) by (simpl; discriminate).
  split; [exact Hne|].
  destruct (batches_partition (seq 0 30) Hne) as (_ & Hcat & _ & _ & H30).
  destruct (H30 eq_refl) as [Hsize Hcount].
  split; [exact Hsize|]. split; [exact Hcount|exact Hcat].
Defined.

(** ** The depth order *)

Lemma split_length (s : string) :
  length (split "/" s) = S (count_char "/" s).
Proof.
  induction s as [|c s IH]; simpl; [reflexivity|].
  destruct (Ascii.eqb c "/"); simpl; [now rewrite IH|].
  destruct (split "/" s) as [|seg rest]; simpl in *; [discriminate|exact IH].
Qed.

Lemma insert_by_depth_perm (x : Item) (l : list Item) :
  Permutation (x :: l) (insert_by_depth x l).
Proof.
  induction l as [|y l IH]; simpl; [reflexivity|].
  destruct (Nat.leb (depth x) (depth y)); [reflexivity|].
  rewrite perm_swap. now constructor.
Qed.

Lemma sort_by_depth_perm (l : list Item) : Permutation l (sort_by_depth l).
Proof.
  induction l as [|x l IH]; simpl; [constructor|].
  rewrite <- insert_by_depth_perm. now constructor.
Qed.

Lemma insert_by_depth_sorted (x : Item) (l : list Item) :
  StronglySorted depth_le l -> StronglySorted depth_le (insert_by_depth x l).
Proof.
  induction 1 as [|y l Hs IH Hall]; simpl.
  - repeat constructor.
  - destruct (Nat.leb (depth x) (depth y)) eqn:Hxy.
    + apply Nat.leb_le in Hxy. constructor; [now constructor|].
      constructor; [exact Hxy|].
      eapply Forall_impl; [|exact Hall]. unfold depth_le. intros; lia.
    + apply Nat.leb_gt in Hxy. constructor; [exact IH|].
      eapply Permutation_Forall; [apply insert_by_depth_perm|].
      constructor; [unfold depth_le; lia|exact Hall].
Qed.

Lemma sort_by_depth_sorted (l : list Item) :
  StronglySorted depth_le (sort_by_depth l).
Proof.
  induction l as [|x l IH]; simpl; [constructor|].
  now apply insert_by_depth_sorted.
Qed.

(** Stability: the items of one depth keep the order of the listing. *)
Lemma insert_by_depth_stable (d : nat) (x : Item) (l : list Item) :
  filter (fun y => Nat.eqb (depth y) d) (insert_by_depth x l)
  = filter (fun y => Nat.eqb (depth y) d) (x :: l).
Proof.
  induction l as [|y l IH]; simpl; [reflexivity|].
  destruct (Nat.leb (depth x) (depth y)) eqn:Hxy; [reflexivity|].
  apply Nat.leb_gt in Hxy. simpl in *. rewrite IH.
  destruct (Nat.eqb (depth y) d) eqn:Hy; [|reflexivity].
  destruct (Nat.eqb (depth x) d) eqn:Hx; [|reflexivity].
  apply Nat.eqb_eq in Hx, Hy. lia.
Qed.

Lemma sort_by_depth_stable (d : nat) (l : list Item) :
  filter (fun y => Nat.eqb (depth y) d) (sort_by_depth l)
  = filter (fun y => Nat.eqb (depth y) d) l.
Proof.
  induction l as [|x l IH]; simpl; [reflexivity|].
  rewrite insert_by_depth_stable. simpl. now rewrite IH.
Qed.

(** C8. For a listing that is not empty, the batches are cut from the item
    list sorted by ascending depth: glued together they are a
    depth-ordered, stable rearrangement of the listed items, and the depth
    of an item is the number of segments its path has between ['/']
    separators.  Paths of depths 3, 1, 2, 1 come out in the order
    1, 1, 2, 3. *)
Theorem items_sorted_by_depth (listing : list (string * string)) :
  listing <> [] ->
  exists batches,
    plan listing = Some batches /\
    concat batches = sort_by_depth (map make_item listing) /\
    StronglySorted depth_le (concat batches) /\
    Permutation (map make_item listing) (concat batches) /\
    (forall d, filter (fun y => Nat.eqb (depth y) d) (concat batches)
               = filter (fun y => Nat.eqb (depth y) d)
                        (map make_item listing)) /\
    Forall (fun it => depth it = S (count_char "/" (path it)))
           (concat batches) /\
    map depth (map make_item sample_listing) = [3; 1; 2; 1]%nat /\
    map depth (sort_by_depth (map make_item sample_listing))
      = [1; 1; 2; 3]%nat.
Proof.
  intros Hne. unfold plan.
  destruct listing as [|entry listing]; [congruence|].
  set (items := map make_item (entry :: listing)).
  simpl map. fold items. eexists. split; [reflexivity|].
  rewrite concat_make_batches.
  split; [reflexivity|].
  split; [apply sort_by_depth_sorted|].
  split; [apply sort_by_depth_perm|].
  split; [intros d; apply sort_by_depth_stable|].
  split; [|split; reflexivity].
  eapply Permutation_Forall; [apply sort_by_depth_perm|].
  unfold items. apply Forall_map, Forall_forall. intros e _.
  unfold make_item. simpl. apply split_length.
Qed.

Lemma items_sorted_by_depth_witness :
  sample_listing <> [] /\
  exists batches,
    plan sample_listing = Some batches /\
    map depth (concat batches) = [1; 1; 2; 3]%nat.
Proof.
  assert (Hne : sample_listing <> []) by (unfold sample_listing; discriminate).
  split; [exact Hne|].
  destruct (items_sorted_by_depth sample_listing Hne)
    as (batches & Hplan & Hcat & _ & _ & _ & _ & _ & Hsorted).
  exists batches. split; [exact Hplan|]. rewrite Hcat. exact Hsorted.
Defined.

(** ** The dispatcher *)

Lemma holders_of_app (l1 l2 : list Semaphore) :
  holders_of (l1 ++ l2) = holders_of l1 + holders_of l2.
Proof.
  induction l1 as [|s l1 IH]; simpl; [reflexivity|]. rewrite IH. lia.
Qed.

Lemma update_length (i : nat) (f : Semaphore -> Semaphore)
  (l : list Semaphore) :
  length (Dispatcher.update i f l) = length l.
Proof.
  revert i. induction l as [|s l IH]; intros [|i]; simpl; auto.
Qed.

Lemma update_holders (i : nat) (f : Semaphore -> Semaphore)
  (l : list Semaphore) (s : Semaphore) :
  nth_error l i = Some s ->
  holders_of (Dispatcher.update i f l)
  = holders_of l + (Dispatcher.holders (f s) - Dispatcher.holders s).
Proof.
  revert i. induction l as [|x l IH]; intros [|i]; simpl; try discriminate.
  - intros [= ->]. lia.
  - intros H. rewrite (IH i H). lia.
Qed.

Lemma update_Forall (P : Semaphore -> Prop) (i : nat)
  (f : Semaphore -> Semaphore) (l : list Semaphore) (s : Semaphore) :
  nth_error l i = Some s -> P (f s) -> Forall P l ->
  Forall P (Dispatcher.update i f l).
Proof.
  revert i. induction l as [|x l IH]; intros [|i]; simpl; try discriminate.
  - intros [= ->] Hf Hall. inversion Hall; subst. now constructor.
  - intros H Hf Hall. inversion Hall; subst. constructor; [assumption|].
    now apply (IH i).
Qed.

Lemma nth_error_Forall (P : Semaphore -> Prop) (l : list Semaphore)
  (i : nat) (s : Semaphore) :
  Forall P l -> nth_error l i = Some s -> P s.
Proof.
  intros Hall H. rewrite Forall_forall in Hall.
  apply Hall. eapply nth_error_In, H.
Qed.

Lemma init_slots_bounded (n : Z) : 0 <= n -> slots_bounded (Dispatcher.init n).
Proof.
  intros Hn. constructor; simpl; [|reflexivity].
  constructor; [|constructor]. unfold Dispatcher.holders. simpl. lia.
Qed.

Lemma step_slots_bounded (g g' : Dispatcher.t) (ev : Dispatcher.event) :
  slots_bounded g -> Dispatcher.step g ev = Some g' -> slots_bounded g'.
Proof.
  intros [Hslots Hcur]. destruct ev as [| |i|i|n]; simpl.
  - destruct (nth_error (Dispatcher.sems g) (Dispatcher.cur g)) as [s|] eqn:Hs;
      [|discriminate].
    destruct (0 <? sem_value s) eqn:Hv; [|discriminate].
    apply Z.ltb_lt in Hv. intros [= <-].
    pose proof (nth_error_Forall _ _ _ _ Hslots Hs) as Hb.
    constructor; simpl; [|now rewrite update_length].
    apply (update_Forall _ _ _ _ s); trivial.
    unfold Dispatcher.holders, Dispatcher.take in *. simpl. lia.
  - destruct (nth_error (Dispatcher.sems g) (Dispatcher.cur g)) as [s|] eqn:Hs;
      [|discriminate].
    intros [= <-].
    pose proof (nth_error_Forall _ _ _ _ Hslots Hs) as Hb.
    constructor; simpl; [|now rewrite update_length].
    apply (update_Forall _ _ _ _ s); trivial.
  - destruct (nth_error (Dispatcher.sems g) i) as [s|] eqn:Hs; [|discriminate].
    destruct ((0 <? sem_value s) && negb (Nat.eqb (sem_waiters s) 0))
      eqn:Hv; [|discriminate].
    apply andb_true_iff in Hv. destruct Hv as [Hv _].
    apply Z.ltb_lt in Hv. intros [= <-].
    pose proof (nth_error_Forall _ _ _ _ Hslots Hs) as Hb.
    constructor; simpl; [|now rewrite update_length].
    apply (update_Forall _ _ _ _ s); trivial.
    unfold Dispatcher.holders, Dispatcher.dequeue in *. simpl. lia.
  - destruct (nth_error (Dispatcher.sems g) i) as [s|] eqn:Hs; [|discriminate].
    destruct (0 <? Dispatcher.holders s) eqn:Hv; [|discriminate].
    apply Z.ltb_lt in Hv. intros [= <-].
    pose proof (nth_error_Forall _ _ _ _ Hslots Hs) as Hb.
    constructor; simpl; [|now rewrite update_length].
    apply (update_Forall _ _ _ _ s); trivial.
    unfold Dispatcher.holders, Dispatcher.give in *. simpl in *. lia.
  - unfold Dispatcher.resize, Dispatcher.new_semaphore.
    destruct (n <? 0) eqn:Hn; [discriminate|].
    apply Z.ltb_ge in Hn. intros [= <-].
    constructor; simpl.
    + apply Forall_app. split; [assumption|].
      constructor; [|constructor]. unfold Dispatcher.holders. simpl. lia.
    + rewrite length_app. simpl. lia.
Qed.

Lemma run_slots_bounded (evs : list Dispatcher.event) :
  forall g g', slots_bounded g -> Dispatcher.run evs g = Some g' -> slots_bounded g'.
Proof.
  induction evs as [|ev evs IH]; simpl; intros g g' Hsb.
  - now intros [= <-].
  - destruct (Dispatcher.step g ev) as [g1|] eqn:Hstep; [|discriminate].
    apply IH. now apply (step_slots_bounded g g1 ev).
Qed.

(** An admission takes one slot of the semaphore it goes through, which
    had one to give. *)
Lemma step_enters (g g' : Dispatcher.t) (ev : Dispatcher.event) :
  Dispatcher.enters ev = true -> Dispatcher.step g ev = Some g' ->
  exists s, Dispatcher.entered_through g ev = Some s /\
            0 < sem_value s /\
            Dispatcher.in_flight g' = Dispatcher.in_flight g + 1.
Proof.
  destruct ev as [| |i|i|n]; simpl; try discriminate; intros _.
  - destruct (nth_error (Dispatcher.sems g) (Dispatcher.cur g)) as [s|] eqn:Hs;
      [|discriminate].
    destruct (0 <? sem_value s) eqn:Hv; [|discriminate].
    apply Z.ltb_lt in Hv. intros [= <-]. exists s.
    repeat split; trivial. unfold Dispatcher.in_flight. simpl.
    fold (holders_of (Dispatcher.update (Dispatcher.cur g) Dispatcher.take (Dispatcher.sems g))).
    rewrite (update_holders _ _ _ s Hs).
    unfold holders_of, Dispatcher.holders, Dispatcher.take. simpl. lia.
  - destruct (nth_error (Dispatcher.sems g) i) as [s|] eqn:Hs; [|discriminate].
    destruct ((0 <? sem_value s) && negb (Nat.eqb (sem_waiters s) 0))
      eqn:Hv; [|discriminate].
    apply andb_true_iff in Hv. destruct Hv as [Hv _].
    apply Z.ltb_lt in Hv. intros [= <-]. exists s.
    repeat split; trivial. unfold Dispatcher.in_flight. simpl.
    fold (holders_of (Dispatcher.update i Dispatcher.dequeue (Dispatcher.sems g))).
    rewrite (update_holders _ _ _ s Hs).
    unfold holders_of, Dispatcher.holders, Dispatcher.dequeue. simpl. lia.
Qed.

Lemma in_flight_split (g : Dispatcher.t) (s : Semaphore) :
  slots_bounded g -> nth_error (Dispatcher.sems g) (Dispatcher.cur g) = Some s ->
  Dispatcher.in_flight g = earlier_holders g + Dispatcher.holders s.
Proof.
  intros [_ Hcur] Hs. unfold Dispatcher.in_flight, earlier_holders.
  fold (holders_of (Dispatcher.sems g)).
  rewrite <- (firstn_skipn (Dispatcher.cur g) (Dispatcher.sems g)) at 1.
  rewrite holders_of_app. f_equal.
  pose proof (length_skipn (Dispatcher.cur g) (Dispatcher.sems g)) as Hlen.
  assert (Hnth : nth_error (skipn (Dispatcher.cur g) (Dispatcher.sems g)) 0 = Some s).
  { rewrite nth_error_skipn. now rewrite Nat.add_0_r. }
  destruct (skipn (Dispatcher.cur g) (Dispatcher.sems g)) as [|x [|y rest]];
    simpl in *; try discriminate; try lia.
  injection Hnth as ->. lia.
Qed.

(** C2, as the specification words it, fails on the code.  With 50
    operations in flight the controller halves the ceiling to 50; the next
    [acquire()] goes to the fresh semaphore and is admitted at once, with
    50 operations in flight against a capacity of 50. *)
Lemma admission_counterexample :
  Dispatcher.run halving_trace (Dispatcher.init initial_concurrency) = Some halved /\
  Dispatcher.capacity halved = 50 /\
  Dispatcher.in_flight halved = 50 /\
  Dispatcher.step halved Dispatcher.AcquireNow = Some halved_then_entered /\
  Dispatcher.in_flight halved_then_entered = 51 /\
  ~ admission_below_capacity.
Proof.
  repeat match goal with |- _ /\ _ => split end;
    try (vm_compute; reflexivity).
  intros Hclaim.
  assert (H : Dispatcher.in_flight halved < Dispatcher.capacity halved).
  { apply (Hclaim halving_trace halved halved_then_entered Dispatcher.AcquireNow);
      vm_compute; reflexivity. }
  vm_compute in H. discriminate.
Qed.

(** C2, amended.  Along any run of acquire, wake, release and resize
    events, every semaphore bounds the operations admitted through itself:
    an operation is admitted only while the semaphore it goes through has
    fewer holders than the size it was created with, and an [acquire()]
    that returns at once goes through the semaphore [self.sem] refers to,
    so fewer operations than the current capacity are in flight among
    those admitted through it.  A resize appends a semaphore with every
    slot free and changes no other: no holder is preempted, the holders so
    far all count as earlier ones, and the in-flight count exceeds the
    current capacity by at most the holders of earlier semaphores. *)
Theorem admission_per_semaphore (n0 : Z) (evs : list Dispatcher.event)
  (g : Dispatcher.t) :
  0 <= n0 ->
  Dispatcher.run evs (Dispatcher.init n0) = Some g ->
  Forall (fun s => 0 <= Dispatcher.holders s <= sem_initial s) (Dispatcher.sems g) /\
  (forall ev g', Dispatcher.enters ev = true -> Dispatcher.step g ev = Some g' ->
     exists s, Dispatcher.entered_through g ev = Some s /\
               Dispatcher.holders s < sem_initial s /\
               Dispatcher.in_flight g' = Dispatcher.in_flight g + 1) /\
  (forall g', Dispatcher.step g Dispatcher.AcquireNow = Some g' ->
     Dispatcher.in_flight g - earlier_holders g < Dispatcher.capacity g) /\
  (forall n g', Dispatcher.step g (Dispatcher.Resize n) = Some g' ->
     Dispatcher.sems g' = (Dispatcher.sems g ++ [mkSemaphore n n 0])%list /\
     Dispatcher.capacity g' = n /\
     Dispatcher.in_flight g' = Dispatcher.in_flight g /\
     earlier_holders g' = Dispatcher.in_flight g) /\
  Dispatcher.in_flight g <= Dispatcher.capacity g + earlier_holders g.
Proof.
  intros Hn0 Hrun.
  assert (Hsb : slots_bounded g)
    by (apply (run_slots_bounded evs _ _ (init_slots_bounded n0 Hn0) Hrun)).
  destruct Hsb as [Hslots Hcur].
  assert (Hsb : slots_bounded g) by (constructor; assumption).
  destruct (nth_error (Dispatcher.sems g) (Dispatcher.cur g)) as [c|] eqn:Hc.
  2:{ apply nth_error_None in Hc. lia. }
  pose proof (nth_error_Forall _ _ _ _ Hslots Hc) as Hcb.
  cbv beta in Hcb.
  pose proof (in_flight_split g c Hsb Hc) as Hsplit.
  assert (Hcap : Dispatcher.capacity g = sem_initial c)
    by (unfold Dispatcher.capacity; now rewrite Hc).
  split; [exact Hslots|]. split; [|split; [|split]].
  - intros ev g' Hadm Hstep.
    destruct (step_enters g g' ev Hadm Hstep) as (s & Hs & Hv & Hfl).
    exists s. repeat split; trivial. unfold Dispatcher.holders. lia.
  - intros g' Hstep.
    destruct (step_enters g g' Dispatcher.AcquireNow eq_refl Hstep)
      as (s & Hs & Hv & _).
    simpl in Hs. rewrite Hc in Hs. injection Hs as <-.
    rewrite Hsplit, Hcap. unfold Dispatcher.holders. lia.
  - intros n g'. simpl. unfold Dispatcher.resize, Dispatcher.new_semaphore.
    destruct (n <? 0); [discriminate|]. intros [= <-].
    unfold Dispatcher.capacity, Dispatcher.in_flight, earlier_holders. simpl.
    rewrite nth_error_app2, Nat.sub_diag by lia. simpl.
    fold (holders_of (Dispatcher.sems g ++ [mkSemaphore n n 0])).
    fold (holders_of (Dispatcher.sems g)).
    rewrite holders_of_app, firstn_app, Nat.sub_diag, firstn_all.
    simpl. rewrite app_nil_r. unfold Dispatcher.holders. simpl.
    repeat split; lia.
  - rewrite Hsplit, Hcap. lia.
Qed.

Lemma admission_per_semaphore_witness :
  Dispatcher.run halving_trace (Dispatcher.init 100) = Some halved /\
  Dispatcher.in_flight halved <= Dispatcher.capacity halved + earlier_holders halved /\
  Dispatcher.in_flight halved - earlier_holders halved < Dispatcher.capacity halved.
Proof.
  assert (Hrun : Dispatcher.run halving_trace (Dispatcher.init 100) = Some halved)
    by (vm_compute; reflexivity).
  split; [exact Hrun|].
  destruct (admission_per_semaphore 100 halving_trace halved)
    as (_ & _ & Hnow & _ & Hexcess).
  - lia.
  - exact Hrun.
  - split; [exact Hexcess|].
    apply (Hnow halved_then_entered). vm_compute. reflexivity.
Defined.

(** * Further properties of the code *)

(** ** Counters and the last server error along a run *)

Lemma step_counters (st st' : RestoreManager) (ev : event) :
  well_formed st -> step st ev = Some st' ->
  restored_count st'
    = restored_count st + (if is_restored ev then 1 else 0) /\
  failed_count st'
    = failed_count st + (if is_counted_failure ev then 1 else 0) /\
  last_error_time st'
    = (if is_server_failure ev then event_time ev else last_error_time st).
Proof.
  intros Hwf. destruct ev as [now|item r now|now]; simpl.
  - destruct (Qlt_bool (now - last_adjustment st) 1) eqn:Hdeb.
    + unfold adjust_concurrency. rewrite Hdeb. intros [= <-].
      repeat split; lia.
    + destruct (adjust_concurrency_tick now st Hwf Hdeb)
        as (rate & st1 & _ & -> & _ & _ & _ & Hl & Hr & Hf & _).
      intros [= <-]. rewrite Hl, Hr, Hf. repeat split; lia.
  - intros [= <-]. unfold restore_item.
    destruct r as [|error_str]; simpl; [repeat split; lia|].
    destruct (is_conflict error_str); simpl; [repeat split; lia|].
    destruct (is_5xx_error error_str); repeat split; lia.
  - destruct (get_error_rate now (error_window st)) as [rw|];
      [|discriminate].
    intros [= <-]. simpl. repeat split; lia.
Qed.

Lemma run_counters (evs : list event) :
  forall st, well_formed st ->
  exists st', run evs st = Some st' /\
    restored_count st' = restored_count st + count_events is_restored evs /\
    failed_count st'
      = failed_count st + count_events is_counted_failure evs /\
    last_error_time st' = last_server_failure evs (last_error_time st).
Proof.
  unfold count_events, last_server_failure.
  induction evs as [|ev evs IH]; intros st Hwf.
  - exists st. simpl. repeat split; lia.
  - destruct (step_well_formed st ev Hwf) as (st1 & Hstep & Hwf1).
    destruct (step_counters st st1 ev Hwf Hstep) as (Hr & Hf & Hl).
    destruct (IH st1 Hwf1) as (st' & Hrun & Hr' & Hf' & Hl').
    exists st'. simpl. rewrite Hstep. split; [exact Hrun|].
    rewrite Hr', Hf', Hl', Hr, Hf, Hl.
    destruct (is_restored ev), (is_counted_failure ev); simpl length;
      repeat split; lia.
Qed.

(** X1. Along every run from [__init__], [restored_count] is the number of
    restore calls that returned, [failed_count] the number that raised
    without the conflict signature, and [last_error_time] the clock reading
    of the last such failure with a 5xx signature, or 0 when there was
    none.  Ticks and status reports touch none of the three. *)
Theorem counters_follow_outcomes (t0 : time) (evs : list event) :
  exists st, run evs (init t0) = Some st /\
    restored_count st = count_events is_restored evs /\
    failed_count st = count_events is_counted_failure evs /\
    last_error_time st = last_server_failure evs 0%Q.
Proof.
  destruct (run_counters evs (init t0) (init_well_formed t0))
    as (st & Hrun & Hr & Hf & Hl).
  exists st. simpl in *. repeat split; trivial; lia.
Qed.

(** X2. Along every run from [__init__] the window never holds more than
    100 entries, and the semaphore [self.sem] refers to was created with
    exactly [current_concurrency] slots. *)
Theorem semaphore_matches_ceiling (t0 : time) (evs : list event) :
  exists st, run evs (init t0) = Some st /\
    (length (error_window st) <= 100)%nat /\
    Dispatcher.capacity (sem st) = current_concurrency st.
Proof.
  destruct (run_well_formed evs (init t0) (init_well_formed t0))
    as (st & Hrun & [_ Hw Hg]).
  exists st. repeat split; trivial.
Qed.

(** ** More on the error rate *)

Lemma popleft_old_idempotent (now : time) (w : window) :
  popleft_old now (popleft_old now w) = popleft_old now w.
Proof.
  induction w as [|e w IH]; simpl; [reflexivity|].
  destruct (too_old now e) eqn:He; [exact IH|].
  simpl. now rewrite He.
Qed.

(** X3. A second call of [get_error_rate] at the same clock reading
    returns the same rate and removes nothing more. *)
Theorem get_error_rate_idempotent (now : time) (w w' : window)
  (rate : PyFloat.float) :
  get_error_rate now w = Some (rate, w') ->
  get_error_rate now w' = Some (rate, w').
Proof.
  unfold get_error_rate. intros H.
  assert (Hw : w' = popleft_old now w).
  { destruct (popleft_old now w) as [|e k]; [now injection H as _ <-|].
    destruct (PyFloat.int_truediv _ _); [|discriminate].
    now injection H as _ <-. }
  rewrite Hw, popleft_old_idempotent. rewrite <- Hw. subst w'. exact H.
Qed.

Lemma get_error_rate_idempotent_witness :
  get_error_rate 1005 [(1000%Q, true); (1001%Q, false)]
    = Some (PyFloat.literal 1 2, [(1000%Q, true); (1001%Q, false)]).
Proof.
  apply (get_error_rate_idempotent 1005 [(1000%Q, true); (1001%Q, false)]).
  vm_compute. reflexivity.
Defined.

(** X4. The float comparison [error_rate > 0.1] is exact on a window of at
    most 100 entries: it holds exactly when the server errors counted are
    more than one tenth of the entries left in the window. *)
Theorem error_threshold_exact (now : time) (w : window) :
  (length w <= window_maxlen)%nat ->
  exists rate w',
    get_error_rate now w = Some (rate, w') /\
    (PyFloat.ltb error_threshold rate = true <->
     Z.of_nat (length w')
     < 10 * Z.of_nat (length (filter (recent_error now) w'))).
Proof.
  intros Hlen. unfold get_error_rate.
  pose proof (popleft_old_length now w) as Hp.
  destruct (popleft_old now w) as [|e k] eqn:Hk.
  - exists PyFloat.zero, []. split; [reflexivity|]. simpl.
    split; [discriminate|lia].
  - set (w' := e :: k) in *.
    pose proof (filter_length_le (recent_error now) w') as Hf.
    destruct (rate_exact (Z.of_nat (length w'))
                (Z.of_nat (length (filter (recent_error now) w'))))
      as (x & Hx & _ & _ & Hiff).
    + unfold w', window_maxlen in *. simpl length in *. lia.
    + lia.
    + exists x, w'. rewrite Hx. split; [reflexivity|exact Hiff].
Qed.

Lemma error_threshold_exact_witness :
  exists rate w',
    get_error_rate 1005 [(1000%Q, true); (1001%Q, false)]
      = Some (rate, w') /\
    (PyFloat.ltb error_threshold rate = true <->
     Z.of_nat (length w')
     < 10 * Z.of_nat (length (filter (recent_error 1005) w'))).
Proof.
  apply (error_threshold_exact 1005 [(1000%Q, true); (1001%Q, false)]).
  unfold window_maxlen. simpl. lia.
Defined.

(** ** The capacity cap of the window *)

Lemma firstn_removelast_Forall {A : Type} (P : A -> Prop) (k : nat)
  (l : list A) :
  Forall P (firstn k l) -> Forall P (firstn k (removelast l)).
Proof.
  revert k. induction l as [|x l IH]; intros k H; [now destruct k|].
  destruct k; [constructor|].
  destruct l as [|y l]; [constructor|].
  simpl in H. inversion H; subst.
  change (removelast (x :: y :: l)) with (x :: removelast (y :: l)).
  simpl. constructor; [assumption|]. now apply IH.
Qed.

Lemma rev_tl {A : Type} (l : list A) : rev (tl l) = removelast (rev l).
Proof.
  destruct l as [|x l]; [reflexivity|]. simpl.
  now rewrite removelast_last.
Qed.

(** The last [k] entries of the window, youngest first. *)
Lemma deque_append_youngest (k : nat) (t : Q) (w : window) :
  Forall (fun e => snd e = false) (firstn k (rev w)) ->
  Forall (fun e => snd e = false)
         (firstn (S k) (rev (deque_append (t, false) w))).
Proof.
  intros H. unfold deque_append.
  destruct (Nat.ltb (length w) window_maxlen);
    rewrite rev_app_distr; simpl; constructor; trivial.
  rewrite rev_tl. now apply firstn_removelast_Forall.
Qed.

Lemma burst_fills_window (burst : list event) :
  forall st k,
    forallb is_other_failure burst = true ->
    Forall (fun e => snd e = false) (firstn k (rev (error_window st))) ->
    exists st', run burst st = Some st' /\
      Forall (fun e => snd e = false)
             (firstn (k + length burst) (rev (error_window st'))) /\
      (well_formed st -> well_formed st').
Proof.
  induction burst as [|ev burst IH]; intros st k Hall Hk.
  - exists st. simpl. rewrite Nat.add_0_r.
    split; [reflexivity|]. split; [assumption|tauto].
  - simpl in Hall. apply andb_true_iff in Hall. destruct Hall as [Hev Hall].
    destruct ev as [now|item r now|now]; try discriminate.
    destruct r as [|error_str]; [discriminate|].
    simpl in Hev. apply andb_true_iff in Hev. destruct Hev as [Hc H5].
    apply negb_true_iff in H5.
    set (st1 := state_after (restore_item item (Raised error_str) now st)).
    assert (Hw1 : error_window st1
                  = deque_append (now, false) (error_window st)).
    { unfold st1, restore_item. rewrite Hc. simpl. now rewrite H5. }
    destruct (IH st1 (S k) Hall) as (st' & Hrun & Hk' & Hwf').
    { rewrite Hw1. now apply deque_append_youngest. }
    exists st'. simpl. fold st1. split; [exact Hrun|]. split.
    + now rewrite Nat.add_succ_r.
    + intros Hwf. apply Hwf'.
      now apply restore_item_well_formed.
Qed.

Lemma zero_rate_exact (n : Z) :
  1 <= n <= Z.of_nat window_maxlen ->
  PyFloat.int_truediv 0 n = Some PyFloat.zero.
Proof.
  intros Hn.
  assert (H : zero_rate_checked n = true).
  { apply (all_upto_spec 100); [vm_compute; reflexivity|].
    unfold window_maxlen in Hn. lia. }
  unfold zero_rate_checked in H. apply orb_true_iff in H.
  destruct H as [H|H]; [apply Z.eqb_eq in H; lia|].
  destruct (PyFloat.int_truediv 0 n) as [[[|]| | |]|]; try discriminate.
  reflexivity.
Qed.

(** X5. The window keeps the 100 youngest entries whatever their age: after
    100 or more failures in a row without a 5xx signature, whatever the
    run before them, [get_error_rate] returns [0.0] at every clock
    reading, although server errors younger than the window duration may
    have been recorded before the burst. *)
Theorem burst_hides_server_errors (t0 : time) (evs burst : list event) :
  forallb is_other_failure burst = true ->
  (100 <= length burst)%nat ->
  exists st, run (evs ++ burst) (init t0) = Some st /\
    forall now, exists w,
      get_error_rate now (error_window st) = Some (PyFloat.zero, w).
Proof.
  intros Hall Hlen.
  destruct (run_well_formed evs (init t0) (init_well_formed t0))
    as (st0 & Hrun0 & Hwf0).
  destruct (burst_fills_window burst st0 0%nat Hall)
    as (st & Hrun & Hyoung & Hwf); [constructor|].
  specialize (Hwf Hwf0). destruct Hwf as [_ Hw _].
  exists st. split.
  { clear - Hrun0 Hrun. revert Hrun0. generalize (init t0).
    induction evs as [|ev evs IH]; simpl; intros s Hs.
    - now injection Hs as ->.
    - destruct (step s ev); [now apply IH|discriminate]. }
  intros now.
  assert (Hfalse : Forall (fun e => snd e = false) (error_window st)).
  { rewrite firstn_all2 in Hyoung
      by (rewrite length_rev; unfold window_maxlen in Hw; simpl; lia).
    apply Forall_forall. intros e He. rewrite Forall_forall in Hyoung.
    apply Hyoung. now apply in_rev in He. }
  unfold get_error_rate.
  pose proof (popleft_old_length now (error_window st)) as Hp.
  assert (Hsub : Forall (fun e => snd e = false)
                        (popleft_old now (error_window st))).
  { apply Forall_forall. intros e He. rewrite Forall_forall in Hfalse.
    now apply Hfalse, (popleft_old_incl now). }
  destruct (popleft_old now (error_window st)) as [|e k] eqn:Hk.
  - now exists [].
  - assert (Hnone : filter (recent_error now) (e :: k) = []).
    { clear - Hsub. induction Hsub as [|x l Hx _ IH]; [reflexivity|].
      simpl. unfold recent_error at 1. now rewrite Hx. }
    rewrite Hnone. simpl length at 1.
    rewrite zero_rate_exact; [now eexists|].
    unfold window_maxlen in *. simpl length in *. lia.
Qed.

Lemma burst_hides_server_errors_witness :
  exists st, run (one_old_error ++ not_found_burst) (init 1000) = Some st /\
    forall now, exists w,
      get_error_rate now (error_window st) = Some (PyFloat.zero, w).
Proof.
  apply (burst_hides_server_errors 1000 one_old_error not_found_burst).
  - vm_compute. reflexivity.
  - vm_compute. repeat constructor.
Defined.

(** ** More on the controller *)

(** X6. Two ticks less than a second apart: when the first one adjusts (it
    is not debounced), the second one is skipped and changes nothing, so
    the ceiling moves at most once per second. *)
Theorem one_adjustment_per_second (now1 now2 : time)
  (st st1 : RestoreManager) :
  well_formed st ->
  Qlt_bool (now1 - last_adjustment st) 1 = false ->
  adjust_concurrency now1 st = Some st1 ->
  (now2 - now1 < 1)%Q ->
  adjust_concurrency now2 st1 = Some st1.
Proof.
  intros Hwf Hdeb Hst1 Hclose.
  destruct (adjust_concurrency_tick now1 st Hwf Hdeb)
    as (rate & st' & _ & Hst' & _ & _ & Hadj & _).
  rewrite Hst1 in Hst'. injection Hst' as <-.
  unfold adjust_concurrency. rewrite Hadj.
  apply Qlt_bool_iff in Hclose. now rewrite Hclose.
Qed.

(** The second tick of the example comes half a second after the first:
    at 2003/2 = 1001.5. *)
Lemma one_adjustment_per_second_witness :
  (1001 < 2003 # 2)%Q /\
  ((2003 # 2) - 1001 == 1 # 2)%Q /\
  exists st1,
    adjust_concurrency 1001 started = Some st1 /\
    current_concurrency st1 = 120 /\
    adjust_concurrency (2003 # 2) st1 = Some st1.
Proof.
  split; [reflexivity|]. split; [reflexivity|].
  destruct (step_well_formed started (Tick 1001) (init_well_formed 1000))
    as (st1 & Hst1 & _).
  simpl in Hst1. exists st1. split; [exact Hst1|]. split.
  - assert (H : next_ceiling 1001 started = Some 120)
      by (vm_compute; reflexivity).
    unfold next_ceiling in H. rewrite Hst1 in H. now injection H.
  - apply (one_adjustment_per_second 1001 (2003 # 2) started st1).
    + exact (init_well_formed 1000).
    + reflexivity.
    + exact Hst1.
    + reflexivity.
Defined.

(** X7. A tick re-binds [self.sem] only when it changes the ceiling: a tick
    that leaves [current_concurrency] as it was leaves the semaphore, its
    holders and its waiters in place. *)
Theorem semaphore_kept_with_ceiling (now : time) (st st' : RestoreManager) :
  adjust_concurrency now st = Some st' ->
  current_concurrency st' = current_concurrency st ->
  sem st' = sem st.
Proof.
  assert (Hset : forall n s s', set_concurrency n s = Some s' ->
                                current_concurrency s' = n).
  { intros n s s'. unfold set_concurrency.
    destruct (Dispatcher.resize n (sem s)); [|discriminate].
    now intros [= <-]. }
  unfold adjust_concurrency.
  destruct (Qlt_bool (now - last_adjustment st) 1); [now intros [= <-]|].
  destruct (get_error_rate now (error_window st)) as [[rate w]|];
    [|discriminate].
  cbn [fst snd current_concurrency last_error_time set_error_window].
  destruct (PyFloat.ltb error_threshold rate).
  - destruct (backoff (current_concurrency st)) as [n|]; [|discriminate].
    destruct (n =? current_concurrency st) eqn:Hn;
      [now intros [= <-]|].
    destruct (set_concurrency n _) as [s1|] eqn:Hs1; [|discriminate].
    intros [= <-]. apply Hset in Hs1. simpl. intros H.
    apply Z.eqb_neq in Hn. congruence.
  - destruct (Qlt_bool recovery_interval (now - last_error_time st)
              && (current_concurrency st <? max_concurrency));
      [|now intros [= <-]].
    destruct (recover (current_concurrency st)) as [n|]; [|discriminate].
    destruct (n =? current_concurrency st) eqn:Hn;
      [now intros [= <-]|].
    destruct (set_concurrency n _) as [s1|] eqn:Hs1; [|discriminate].
    intros [= <-]. apply Hset in Hs1. simpl. intros H.
    apply Z.eqb_neq in Hn. congruence.
Qed.

Lemma semaphore_kept_with_ceiling_witness :
  Qlt_bool (1001 - last_adjustment after_mixed) 1 = false /\
  adjust_concurrency 1001 after_mixed = Some after_mixed_tick /\
  sem after_mixed_tick = sem after_mixed.
Proof.
  split; [vm_compute; reflexivity|].
  assert (H : adjust_concurrency 1001 after_mixed = Some after_mixed_tick)
    by (vm_compute; reflexivity).
  split; [exact H|].
  apply (semaphore_kept_with_ceiling 1001 after_mixed after_mixed_tick H).
  vm_compute. reflexivity.
Defined.

(** ** Repeated adjustment *)

Lemma backoff_rank_step (c : Z) :
  min_concurrency <= c <= max_concurrency ->
  backoff_rank (Z.max (c / 2) min_concurrency) = pred (backoff_rank c) /\
  (backoff_rank c <= 6)%nat /\
  (backoff_rank c = 0%nat -> c = min_concurrency).
Proof.
  intros Hc.
  assert (H : backoff_rank_checked c = true).
  { apply (all_upto_spec 600); [vm_compute; reflexivity|].
    unfold min_concurrency, max_concurrency in Hc. lia. }
  unfold backoff_rank_checked in H. apply orb_true_iff in H.
  destruct H as [H|H]; [apply Z.ltb_lt in H; lia|].
  apply andb_true_iff in H. destruct H as [H H3].
  apply andb_true_iff in H. destruct H as [H1 H2].
  apply Nat.eqb_eq in H1. apply Nat.leb_le in H2.
  repeat split; trivial. intros H0. rewrite H0 in H3. simpl in H3.
  now apply Z.eqb_eq in H3.
Qed.

Lemma recovery_rank_step (c : Z) :
  min_concurrency <= c <= max_concurrency ->
  (recovery_rank c <= 24)%nat /\
  (c < max_concurrency ->
   S (recovery_rank (Z.min (c * 6 / 5) max_concurrency)) = recovery_rank c).
Proof.
  intros Hc.
  assert (H : recovery_rank_checked c = true).
  { apply (all_upto_spec 600); [vm_compute; reflexivity|].
    unfold min_concurrency, max_concurrency in Hc. lia. }
  unfold recovery_rank_checked in H. apply orb_true_iff in H.
  destruct H as [H|H]; [apply Z.ltb_lt in H; lia|].
  apply andb_true_iff in H. destruct H as [H1 H2].
  apply Nat.leb_le in H1. split; [exact H1|]. intros Hlt.
  apply orb_true_iff in H2. destruct H2 as [H2|H2].
  - apply Z.leb_le in H2. lia.
  - now apply Nat.eqb_eq in H2.
Qed.

(** The ceiling a tick leaves, by the branch it takes. *)
Lemma tick_by_branch (now : time) (st : RestoreManager) (b : branch) :
  well_formed st -> branch_taken now st = Some b ->
  exists st', adjust_concurrency now st = Some st' /\
    well_formed st' /\
    current_concurrency st'
    = match b with
      | Skipped | Hold => current_concurrency st
      | Backoff => Z.max (current_concurrency st / 2) min_concurrency
      | Recovery => Z.min (current_concurrency st * 6 / 5) max_concurrency
      end /\
    (b = Recovery -> current_concurrency st < max_concurrency).
Proof.
  intros Hwf. unfold branch_taken.
  destruct (Qlt_bool (now - last_adjustment st) 1) eqn:Hdeb.
  - intros [= <-]. exists st. unfold adjust_concurrency. rewrite Hdeb.
    split; [reflexivity|]. split; [exact Hwf|].
    split; [reflexivity|intros H; discriminate H].
  - destruct (adjust_concurrency_tick now st Hwf Hdeb)
      as (rate & st' & -> & Hst' & Hc & _ & _ & _ & _ & _ & Hwf').
    cbn [fst]. unfold exact_ceiling in Hc. intros Hb.
    exists st'. split; [exact Hst'|]. split; [exact Hwf'|].
    destruct (PyFloat.ltb error_threshold rate).
    + injection Hb as <-. split; [exact Hc|intros H; discriminate H].
    + destruct (Qlt_bool recovery_interval (now - last_error_time st))
        eqn:Hold; cbn [andb] in *.
      * destruct (current_concurrency st <? max_concurrency) eqn:Hlt;
          injection Hb as <-; (split; [exact Hc|]);
          [intros _; now apply Z.ltb_lt in Hlt|intros H; discriminate H].
      * injection Hb as <-. split; [exact Hc|intros H; discriminate H].
Qed.

Lemma step_keeps_ceiling (st st' : RestoreManager) (ev : event) :
  (forall now, ev <> Tick now) -> step st ev = Some st' ->
  current_concurrency st' = current_concurrency st.
Proof.
  intros Hev. destruct ev as [now|item r now|now]; simpl.
  - now destruct (Hev now).
  - intros [= <-]. unfold restore_item. destruct r as [|e]; [reflexivity|].
    now destruct (negb (is_conflict e)).
  - destruct (get_error_rate now (error_window st)); [|discriminate].
    now intros [= <-].
Qed.

Lemma run_backoff_rank (evs : list event) :
  forall st st' bs,
    well_formed st -> run evs st = Some st' -> branches evs st = Some bs ->
    Forall (fun b => b <> Recovery) bs ->
    backoff_rank (current_concurrency st')
    = (backoff_rank (current_concurrency st) - count_branch Backoff bs)%nat.
Proof.
  unfold count_branch.
  induction evs as [|ev evs IH]; simpl; intros st st' bs Hwf Hrun Hbs Hall.
  - injection Hrun as <-. injection Hbs as <-. simpl. lia.
  - destruct (step_well_formed st ev Hwf) as (st1 & Hstep & Hwf1).
    rewrite Hstep in Hrun, Hbs.
    destruct (branches evs st1) as [bs1|] eqn:Hbs1; [|discriminate].
    destruct ev as [now|item r now|now].
    + destruct (branch_taken now st) as [b|] eqn:Hb; [|discriminate].
      injection Hbs as <-. inversion Hall as [|? ? Hnb Hall1]; subst.
      rewrite (IH st1 st' bs1 Hwf1 Hrun Hbs1 Hall1).
      destruct (tick_by_branch now st b Hwf Hb) as (st2 & Hst2 & _ & Hc & _).
      simpl in Hstep. rewrite Hstep in Hst2. injection Hst2 as <-.
      rewrite Hc. destruct Hwf as [Hrange _ _].
      destruct (backoff_rank_step _ Hrange) as (Hpred & _).
      destruct b; cbn [filter branch_eqb length];
        [lia | rewrite Hpred; lia | congruence | lia].
    + injection Hbs as <-.
      rewrite (IH st1 st' bs1 Hwf1 Hrun Hbs1 Hall).
      now rewrite (step_keeps_ceiling st st1 (Done item r now)
                 ltac:(intros ? H0; discriminate H0) Hstep).
    + injection Hbs as <-.
      rewrite (IH st1 st' bs1 Hwf1 Hrun Hbs1 Hall).
      now rewrite (step_keeps_ceiling st st1 (Report now)
                 ltac:(intros ? H0; discriminate H0) Hstep).
Qed.

(** X8. From any state a run can reach, a run in which no tick takes the
    recovery branch and at least six ticks take the backoff branch ends
    with the ceiling at [min_concurrency], whatever restore completions,
    status reports, skipped or holding ticks lie in between. *)
Theorem six_backoffs_reach_floor (evs : list event) (st st' : RestoreManager)
  (bs : list branch) :
  well_formed st ->
  run evs st = Some st' ->
  branches evs st = Some bs ->
  Forall (fun b => b <> Recovery) bs ->
  (6 <= count_branch Backoff bs)%nat ->
  current_concurrency st' = min_concurrency.
Proof.
  intros Hwf Hrun Hbs Hall Hsix.
  pose proof (run_backoff_rank evs st st' bs Hwf Hrun Hbs Hall) as Hrank.
  destruct (run_well_formed evs st Hwf) as (st2 & Hrun2 & [Hrange' _ _]).
  rewrite Hrun in Hrun2. injection Hrun2 as <-.
  destruct Hwf as [Hrange _ _].
  destruct (backoff_rank_step _ Hrange) as (_ & Hle & _).
  destruct (backoff_rank_step _ Hrange') as (_ & _ & Hzero).
  apply Hzero. lia.
Qed.

Lemma six_backoffs_reach_floor_witness :
  exists st' bs,
    run six_backoffs started = Some st' /\
    branches six_backoffs started = Some bs /\
    current_concurrency st' = min_concurrency.
Proof.
  destruct (run_well_formed six_backoffs started (init_well_formed 1000))
    as (st' & Hrun & _).
  exists st', (repeat Backoff 6).
  assert (Hbs : branches six_backoffs started = Some (repeat Backoff 6))
    by (vm_compute; reflexivity).
  split; [exact Hrun|]. split; [exact Hbs|].
  apply (six_backoffs_reach_floor six_backoffs started st' (repeat Backoff 6)).
  - exact (init_well_formed 1000).
  - exact Hrun.
  - exact Hbs.
  - simpl. repeat constructor; discriminate.
  - vm_compute. repeat constructor.
Defined.

Lemma run_recovery_rank (evs : list event) :
  forall st st' bs,
    well_formed st -> run evs st = Some st' -> branches evs st = Some bs ->
    Forall (fun b => b <> Backoff) bs ->
    (recovery_rank (current_concurrency st') + count_branch Recovery bs
     = recovery_rank (current_concurrency st))%nat /\
    current_concurrency st <= current_concurrency st'.
Proof.
  unfold count_branch.
  induction evs as [|ev evs IH]; simpl; intros st st' bs Hwf Hrun Hbs Hall.
  - injection Hrun as <-. injection Hbs as <-. simpl. lia.
  - destruct (step_well_formed st ev Hwf) as (st1 & Hstep & Hwf1).
    rewrite Hstep in Hrun, Hbs.
    destruct (branches evs st1) as [bs1|] eqn:Hbs1; [|discriminate].
    destruct ev as [now|item r now|now].
    + destruct (branch_taken now st) as [b|] eqn:Hb; [|discriminate].
      injection Hbs as <-. inversion Hall as [|? ? Hnb Hall1]; subst.
      destruct (IH st1 st' bs1 Hwf1 Hrun Hbs1 Hall1) as [Hrank Hle].
      destruct (tick_by_branch now st b Hwf Hb)
        as (st2 & Hst2 & _ & Hc & Hlt).
      simpl in Hstep. rewrite Hstep in Hst2. injection Hst2 as <-.
      rewrite Hc in Hrank, Hle. destruct Hwf as [Hrange _ _].
      destruct (recovery_rank_step _ Hrange) as (_ & Hsucc).
      destruct b; cbn [filter branch_eqb length];
        [split; lia | congruence | | split; lia].
      specialize (Hsucc (Hlt eq_refl)). split; [lia|].
      unfold min_concurrency, max_concurrency in *.
      revert Hle. Z.div_mod_to_equations. lia.
    + injection Hbs as <-.
      destruct (IH st1 st' bs1 Hwf1 Hrun Hbs1 Hall) as [Hrank Hle].
      now rewrite (step_keeps_ceiling st st1 (Done item r now)
                 ltac:(intros ? H0; discriminate H0) Hstep)
        in Hrank, Hle.
    + injection Hbs as <-.
      destruct (IH st1 st' bs1 Hwf1 Hrun Hbs1 Hall) as [Hrank Hle].
      now rewrite (step_keeps_ceiling st st1 (Report now)
                 ltac:(intros ? H0; discriminate H0) Hstep)
        in Hrank, Hle.
Qed.

(** X9. From any state a run can reach, a run in which no tick takes the
    backoff branch never lowers the ceiling, and at most 24 of its ticks
    take the recovery branch: after that many the ceiling is at
    [max_concurrency] and the branch is closed. *)
Theorem recovery_is_bounded (evs : list event) (st st' : RestoreManager)
  (bs : list branch) :
  well_formed st ->
  run evs st = Some st' ->
  branches evs st = Some bs ->
  Forall (fun b => b <> Backoff) bs ->
  (count_branch Recovery bs <= 24)%nat /\
  current_concurrency st <= current_concurrency st' /\
  (count_branch Recovery bs = 24%nat ->
   current_concurrency st' = max_concurrency).
Proof.
  intros Hwf Hrun Hbs Hall.
  destruct (run_recovery_rank evs st st' bs Hwf Hrun Hbs Hall)
    as [Hrank Hle].
  destruct (run_well_formed evs st Hwf) as (st2 & Hrun2 & [Hrange' _ _]).
  rewrite Hrun in Hrun2. injection Hrun2 as <-.
  destruct Hwf as [Hrange _ _].
  destruct (recovery_rank_step _ Hrange) as (H24 & _).
  split; [lia|]. split; [exact Hle|]. intros Hfull.
  assert (Hzero : recovery_rank (current_concurrency st') = 0%nat) by lia.
  destruct (recovery_rank_step _ Hrange') as (_ & Hsucc).
  destruct (Z_lt_le_dec (current_concurrency st') max_concurrency)
    as [Hlt|Hge]; [specialize (Hsucc Hlt); lia|lia].
Qed.

Lemma recovery_is_bounded_witness :
  exists st' bs,
    run three_recoveries started = Some st' /\
    branches three_recoveries started = Some bs /\
    (count_branch Recovery bs <= 24)%nat /\
    current_concurrency started <= current_concurrency st'.
Proof.
  destruct (run_well_formed three_recoveries started (init_well_formed 1000))
    as (st' & Hrun & _).
  exists st', (repeat Recovery 3).
  assert (Hbs : branches three_recoveries started = Some (repeat Recovery 3))
    by (vm_compute; reflexivity).
  split; [exact Hrun|]. split; [exact Hbs|].
  destruct (recovery_is_bounded three_recoveries started st'
              (repeat Recovery 3)) as (H1 & H2 & _).
  - exact (init_well_formed 1000).
  - exact Hrun.
  - exact Hbs.
  - simpl. repeat constructor; discriminate.
  - split; assumption.
Defined.

(** ** The dispatcher between two adjustments *)

Lemma step_keeps_semaphore (g g' : Dispatcher.t) (ev : Dispatcher.event) :
  no_resize ev = true -> Dispatcher.step g ev = Some g' ->
  Dispatcher.cur g' = Dispatcher.cur g /\
  length (Dispatcher.sems g') = length (Dispatcher.sems g) /\
  Dispatcher.capacity g' = Dispatcher.capacity g.
Proof.
  assert (Hcap : forall i f,
    (forall s, sem_initial (f s) = sem_initial s) ->
    Dispatcher.capacity
      (Dispatcher.mk (Dispatcher.update i f (Dispatcher.sems g))
                     (Dispatcher.cur g))
    = Dispatcher.capacity g).
  { intros i f Hf. unfold Dispatcher.capacity. simpl.
    generalize (Dispatcher.cur g) as j. revert i.
    induction (Dispatcher.sems g) as [|s l IH]; intros [|i] [|j]; simpl;
      trivial. }
  destruct ev as [| |i|i|n]; simpl; try discriminate; intros _.
  - destruct (nth_error _ _) as [s|]; [|discriminate].
    destruct (0 <? sem_value s); [|discriminate]. intros [= <-].
    simpl. rewrite update_length. repeat split. now apply Hcap.
  - destruct (nth_error _ _) as [s|]; [|discriminate]. intros [= <-].
    simpl. rewrite update_length. repeat split. now apply Hcap.
  - destruct (nth_error _ _) as [s|]; [|discriminate].
    destruct (_ && _); [|discriminate]. intros [= <-].
    simpl. rewrite update_length. repeat split. now apply Hcap.
  - destruct (nth_error _ _) as [s|]; [|discriminate].
    destruct (0 <? Dispatcher.holders s); [|discriminate]. intros [= <-].
    simpl. rewrite update_length. repeat split. now apply Hcap.
Qed.

Lemma run_keeps_semaphore (evs : list Dispatcher.event) :
  forall g g',
    forallb no_resize evs = true -> Dispatcher.run evs g = Some g' ->
    Dispatcher.cur g' = Dispatcher.cur g /\
    Dispatcher.capacity g' = Dispatcher.capacity g.
Proof.
  induction evs as [|ev evs IH]; simpl; intros g g' Hall Hrun.
  - injection Hrun as <-. now split.
  - apply andb_true_iff in Hall. destruct Hall as [Hev Hall].
    destruct (Dispatcher.step g ev) as [g1|] eqn:Hstep; [|discriminate].
    destruct (step_keeps_semaphore g g1 ev Hev Hstep) as (Hc & _ & Hcap).
    destruct (IH g1 g' Hall Hrun) as [Hc' Hcap']. split; congruence.
Qed.

(** X10. As long as the controller does not re-bind [self.sem], the
    semaphore does its job: along any run of acquire, wake and release
    events on the initial semaphore, the number of operations in flight
    stays between 0 and its size. *)
Theorem bound_holds_without_resize (n0 : Z) (evs : list Dispatcher.event)
  (g : Dispatcher.t) :
  0 <= n0 ->
  forallb no_resize evs = true ->
  Dispatcher.run evs (Dispatcher.init n0) = Some g ->
  Dispatcher.capacity g = n0 /\
  0 <= Dispatcher.in_flight g <= n0.
Proof.
  intros Hn0 Hall Hrun.
  destruct (run_keeps_semaphore evs _ _ Hall Hrun) as [Hcur Hcap].
  simpl in Hcur. change (Dispatcher.capacity (Dispatcher.init n0)) with n0
    in Hcap.
  split; [exact Hcap|].
  assert (Hsb : slots_bounded g)
    by (apply (run_slots_bounded evs _ _ (init_slots_bounded n0 Hn0) Hrun)).
  destruct (nth_error (Dispatcher.sems g) (Dispatcher.cur g)) as [c|] eqn:Hc.
  2:{ destruct Hsb as [_ Hlen]. apply nth_error_None in Hc. lia. }
  pose proof (in_flight_split g c Hsb Hc) as Hsplit.
  destruct Hsb as [Hslots _].
  pose proof (nth_error_Forall _ _ _ _ Hslots Hc) as Hcb. cbv beta in Hcb.
  unfold earlier_holders in Hsplit. rewrite Hcur in Hsplit. simpl in Hsplit.
  unfold Dispatcher.capacity in Hcap. rewrite Hc in Hcap. lia.
Qed.

Lemma bound_holds_without_resize_witness :
  Dispatcher.run steady_trace (Dispatcher.init 100) = Some steady /\
  Dispatcher.capacity steady = 100 /\
  0 <= Dispatcher.in_flight steady <= 100.
Proof.
  assert (Hrun : Dispatcher.run steady_trace (Dispatcher.init 100)
                 = Some steady) by (vm_compute; reflexivity).
  split; [exact Hrun|].
  apply (bound_holds_without_resize 100 steady_trace steady).
  - lia.
  - vm_compute. reflexivity.
  - exact Hrun.
Defined.

(** ** More on the batch plan *)

Lemma concat_full_length {A : Type} (bs : nat) (full : list (list A)) :
  Forall (fun b => length b = bs) full ->
  length (concat full) = (length full * bs)%nat.
Proof.
  induction 1 as [|b full Hb _ IH]; simpl; [reflexivity|].
  rewrite length_app, IH, Hb. reflexivity.
Qed.

(** X11. The number of batches is the number of items divided by the batch
    size, rounded up.  Between 30 and 3000 items the batch size is a third
    of the count, so there are three batches when the count is a multiple
    of three and otherwise four, the fourth holding the one or two items
    left over. *)
Theorem batch_count {A : Type} (l : list A) :
  l <> [] ->
  ((length (make_batches l) - 1) * batch_size (length l) < length l
   <= length (make_batches l) * batch_size (length l))%nat /\
  ((30 <= length l <= 3000)%nat ->
   batch_size (length l) = (length l / 3)%nat /\
   length (make_batches l)
   = (if Nat.eqb (length l mod 3)%nat 0%nat then 3 else 4)%nat /\
   ((length l mod 3)%nat <> 0%nat ->
    exists full last,
      make_batches l = (full ++ [last])%list /\
      length last = (length l mod 3)%nat)).
Proof.
  intros Hne.
  destruct (chunks_shape l (batch_size (length l)) (batch_size_pos _)
              (length l) 0%nat) as (full & last & Heq & Hfull & Hlast).
  { destruct l; [congruence|simpl; lia]. }
  { lia. }
  fold (range 0 (length l) (batch_size (length l))) in Heq.
  rewrite <- make_batches_chunks in Heq by assumption.
  pose proof (concat_make_batches l) as Hcat.
  apply (f_equal (@length A)) in Hcat.
  rewrite Heq, concat_app, length_app in Hcat. simpl in Hcat.
  rewrite app_nil_r, (concat_full_length _ _ Hfull) in Hcat.
  rewrite Heq, length_app. simpl length.
  set (n := length l) in *. set (bs := batch_size n) in *.
  set (k := length full) in *.
  split; [nia|]. intros Hn.
  pose proof (Nat.div_mod_eq n 3) as Hdiv.
  assert (Hmod : (n mod 3 < 3)%nat)
    by (apply Nat.mod_upper_bound; discriminate).
  assert (Hbs : bs = (n / 3)%nat).
  { unfold bs, batch_size. nia. }
  split; [exact Hbs|].
  assert (Hk : (k = 2 /\ n mod 3 = 0 \/ k = 3 /\ n mod 3 <> 0
                /\ length last = n mod 3)%nat).
  { clearbody bs k n. subst bs.
    remember (n / 3)%nat as q eqn:Hq. remember (n mod 3)%nat as r eqn:Hr.
    clear Hq Hr Hfull.
    destruct k as [|[|[|[|m]]]]; simpl in Hcat; try lia; nia. }
  split.
  - destruct Hk as [[-> ->]|(-> & Hr & _)]; [reflexivity|].
    apply Nat.eqb_neq in Hr. now rewrite Hr.
  - intros Hr. exists full, last. split; [reflexivity|].
    destruct Hk as [[_ H0]|(_ & _ & Hl)]; [congruence|exact Hl].
Qed.

Lemma batch_count_witness :
  seq 0 31 <> [] /\
  batch_size (length (seq 0 31)) = 10%nat /\
  length (make_batches (seq 0 31)) = 4%nat.
Proof.
  assert (Hne : seq 0 31 <> []) by (simpl; discriminate).
  split; [exact Hne|].
  destruct (batch_count (seq 0 31) Hne) as (_ & H).
  destruct H as (Hbs & Hk & _); [simpl; lia|].
  split; [exact Hbs|exact Hk].
Defined.

(** ** Parents before children *)

Lemma count_char_append (c : ascii) (a b : string) :
  count_char c (a ++ b)%string = (count_char c a + count_char c b)%nat.
Proof.
  induction a as [|x a IH]; simpl; [reflexivity|].
  destruct (Ascii.eqb x c); simpl; now rewrite IH.
Qed.

Lemma StronglySorted_after {A : Type} (R : A -> A -> Prop)
  (l1 l2 : list A) (x : A) :
  StronglySorted R (l1 ++ x :: l2) -> Forall (R x) l2.
Proof.
  induction l1 as [|y l1 IH]; simpl; intros H; inversion H; subst; auto.
Qed.

(** X12. The depth of a path one or more levels below another is strictly
    greater, so in the order the items are processed every listed entry
    comes before each listed entry below it, wherever the listing had
    them. *)
Theorem parent_before_child (listing : list (string * string))
  (parent child : string * string) (below : string) :
  In parent listing ->
  In child listing ->
  fst child = (fst parent ++ "/" ++ below)%string ->
  (depth (make_item parent) < depth (make_item child))%nat /\
  exists batches before between after,
    plan listing = Some batches /\
    concat batches
    = (before ++ make_item parent :: between
       ++ make_item child :: after)%list.
Proof.
  intros Hp Hc Hpath.
  assert (Hdepth : (depth (make_item parent) < depth (make_item child))%nat).
  { unfold make_item. simpl. rewrite !split_length, Hpath.
    rewrite count_char_append. simpl. lia. }
  split; [exact Hdepth|].
  unfold plan. destruct listing as [|entry listing]; [destruct Hp|].
  set (items := map make_item (entry :: listing)) in *.
  simpl map. fold items. eexists.
  rewrite concat_make_batches.
  pose proof (sort_by_depth_sorted items) as Hsorted.
  pose proof (sort_by_depth_perm items) as Hperm.
  assert (HinP : In (make_item parent) (sort_by_depth items))
    by (eapply Permutation_in; [exact Hperm|now apply in_map]).
  assert (HinC : In (make_item child) (sort_by_depth items))
    by (eapply Permutation_in; [exact Hperm|now apply in_map]).
  destruct (in_split _ _ HinC) as (a & b & Hsplit).
  rewrite Hsplit in HinP, Hsorted.
  apply in_app_or in HinP. destruct HinP as [Ha|[Heq|Hb]].
  - destruct (in_split _ _ Ha) as (l1 & l2 & ->).
    exists l1, l2, b. split; [reflexivity|].
    rewrite Hsplit, <- app_assoc. reflexivity.
  - rewrite Heq in Hdepth. lia.
  - apply StronglySorted_after in Hsorted.
    rewrite Forall_forall in Hsorted. specialize (Hsorted _ Hb).
    unfold depth_le in Hsorted. lia.
Qed.

Lemma parent_before_child_witness :
  exists batches before between after,
    plan nested_listing = Some batches /\
    concat batches
    = (before ++ make_item ("data", "1")%string :: between
       ++ make_item ("data/logs/app.log", "3")%string :: after)%list.
Proof.
  apply (parent_before_child nested_listing ("data", "1")%string
           ("data/logs/app.log", "3")%string "logs/app.log").
  - simpl. tauto.
  - simpl. tauto.
  - reflexivity.
Defined.

(** ** Elapsed times *)

Lemma Qfloor_unique (x : Q) (z : Z) :
  (inject_Z z <= x)%Q -> (x < inject_Z (z + 1))%Q -> Qfloor x = z.
Proof.
  intros Hle Hlt.
  assert (H1 : z <= Qfloor x).
  { rewrite <- (Qfloor_Z z). now apply Qfloor_resp_le. }
  assert (H2 : Qfloor x < z + 1).
  { rewrite Zlt_Qlt. eapply Qle_lt_trans; [apply Qfloor_le|exact Hlt]. }
  lia.
Qed.

Lemma inject_Z_nonneg (z : Z) : 0 <= z -> (0 <= inject_Z z)%Q.
Proof. intros H. change 0%Q with (inject_Z 0). now rewrite <- Zle_Qle. Qed.

Lemma inject_Z_pos (z : Z) : 0 < z -> (0 < inject_Z z)%Q.
Proof. intros H. change 0%Q with (inject_Z 0). now rewrite <- Zlt_Qlt. Qed.

(** The floor of a quotient by a positive integer is the integer quotient
    of the floor. *)
Lemma Qfloor_div (x : Q) (k : Z) :
  0 < k -> Qfloor (x / inject_Z k) = Qfloor x / k.
Proof.
  intros Hk.
  pose proof (Qfloor_le x) as Hlo. pose proof (Qlt_floor x) as Hhi.
  pose proof (Z.div_mod (Qfloor x) k ltac:(lia)) as Hdm.
  pose proof (Z.mod_pos_bound (Qfloor x) k Hk) as Hr.
  set (f := Qfloor x) in *. set (q := f / k) in *. set (r := f mod k) in *.
  assert (HkQ : (0 < inject_Z k)%Q) by (now apply inject_Z_pos).
  assert (Hq1 : (inject_Z q * inject_Z k <= x)%Q).
  { eapply Qle_trans; [|exact Hlo]. rewrite <- inject_Z_mult.
    rewrite <- Zle_Qle. nia. }
  assert (Hq2 : (x < inject_Z (q + 1) * inject_Z k)%Q).
  { eapply Qlt_le_trans; [exact Hhi|]. rewrite <- inject_Z_mult.
    rewrite <- Zle_Qle. nia. }
  apply Qfloor_unique.
  - apply Qle_shift_div_l; assumption.
  - apply Qlt_shift_div_r; assumption.
Qed.

Lemma modulo_floor (x : Q) (k : Z) :
  0 < k ->
  Qfloor (modulo x (inject_Z k)) = Qfloor x mod k /\
  (0 <= modulo x (inject_Z k))%Q.
Proof.
  intros Hk. unfold modulo. rewrite (Qfloor_div x k Hk).
  pose proof (Qfloor_le x) as Hlo. pose proof (Qlt_floor x) as Hhi.
  pose proof (Z.div_mod (Qfloor x) k ltac:(lia)) as Hdm.
  pose proof (Z.mod_pos_bound (Qfloor x) k Hk) as Hr.
  set (f := Qfloor x) in *. set (q := f / k) in *. set (r := f mod k) in *.
  assert (Hf : (inject_Z f == inject_Z k * inject_Z q + inject_Z r)%Q).
  { rewrite <- inject_Z_mult, <- inject_Z_plus. now rewrite <- Hdm. }
  rewrite inject_Z_plus in Hhi. simpl inject_Z in Hhi at 2.
  split.
  - apply Qfloor_unique.
    + lra.
    + rewrite inject_Z_plus. simpl inject_Z at 2. lra.
  - assert (H0 : (0 <= inject_Z r)%Q) by (apply inject_Z_nonneg; lia).
    lra.
Qed.

Lemma int_of_Q_nonneg (x : Q) : (0 <= x)%Q -> int_of_Q x = Qfloor x.
Proof.
  intros H. unfold int_of_Q. apply Qle_bool_iff in H. now rewrite H.
Qed.

Lemma format_02d_two_digits (n : Z) :
  0 <= n < 100 -> format_02d n = two_digits n.
Proof.
  intros Hn.
  assert (H : format_02d_checked n = true).
  { apply (all_upto_spec 99); [vm_compute; reflexivity|lia]. }
  now apply String.eqb_eq in H.
Qed.

(** X13. For a duration [s >= 0], [format_elapsed_time] splits the whole
    seconds of [s] into hours, minutes below 60 and seconds below 60,
    losing nothing; below 100 hours the text is exactly [HH:MM:SS], each
    field two decimal digits. *)
Theorem format_elapsed_time_fields (seconds : Q) :
  (0 <= seconds)%Q ->
  let h := elapsed_hours seconds in
  let m := elapsed_minutes seconds in
  let s := elapsed_secs seconds in
  0 <= h /\ 0 <= m < 60 /\ 0 <= s < 60 /\
  h * 3600 + m * 60 + s = Qfloor seconds /\
  ((seconds < 360000)%Q ->
   h < 100 /\
   format_elapsed_time seconds
   = (two_digits h ++ ":" ++ two_digits m ++ ":" ++ two_digits s)%string).
Proof.
  intros Hs. cbv zeta.
  assert (Hf0 : 0 <= Qfloor seconds).
  { rewrite <- (Qfloor_Z 0). now apply Qfloor_resp_le. }
  assert (Hh : elapsed_hours seconds = Qfloor seconds / 3600).
  { unfold elapsed_hours, floordiv. change 3600%Q with (inject_Z 3600).
    rewrite (Qfloor_div seconds 3600) by lia.
    rewrite int_of_Q_nonneg, Qfloor_Z; [reflexivity|].
    apply inject_Z_nonneg. apply Z.div_pos; lia. }
  destruct (modulo_floor seconds 3600 ltac:(lia)) as [Hm1 Hm0].
  destruct (modulo_floor seconds 60 ltac:(lia)) as [Hs1 Hs0].
  assert (Hm : elapsed_minutes seconds = (Qfloor seconds mod 3600) / 60).
  { unfold elapsed_minutes, floordiv.
    change 60%Q with (inject_Z 60). change 3600%Q with (inject_Z 3600).
    rewrite (Qfloor_div (modulo seconds (inject_Z 3600)) 60) by lia.
    rewrite Hm1.
    rewrite int_of_Q_nonneg, Qfloor_Z; [reflexivity|].
    apply inject_Z_nonneg. apply Z.div_pos; [|lia].
    apply Z.mod_pos_bound. lia. }
  assert (Hc : elapsed_secs seconds = Qfloor seconds mod 60).
  { unfold elapsed_secs. change 60%Q with (inject_Z 60).
    now rewrite int_of_Q_nonneg, Hs1. }
  rewrite Hh, Hm, Hc.
  set (f := Qfloor seconds) in *.
  assert (Harith : 0 <= f / 3600 /\ 0 <= f mod 3600 / 60 < 60 /\
                   0 <= f mod 60 < 60 /\
                   f / 3600 * 3600 + f mod 3600 / 60 * 60 + f mod 60 = f).
  { clearbody f. Z.div_mod_to_equations. lia. }
  destruct Harith as (H1 & H2 & H3 & H4).
  repeat split; try lia. 
  - assert (Hf : f < 360000).
    { rewrite Zlt_Qlt. eapply Qle_lt_trans; [apply Qfloor_le|exact H]. }
    clearbody f. Z.div_mod_to_equations. lia.
  - assert (Hf : f < 360000).
    { rewrite Zlt_Qlt. eapply Qle_lt_trans; [apply Qfloor_le|exact H]. }
    unfold format_elapsed_time. rewrite Hh, Hm, Hc. fold f.
    rewrite !format_02d_two_digits; [reflexivity|lia|lia|].
    clearbody f. Z.div_mod_to_equations. lia.
Qed.

Lemma format_elapsed_time_fields_witness :
  elapsed_hours (7384 + 1 # 2) = 1 /\
  elapsed_minutes (7384 + 1 # 2) = 1 /\
  format_elapsed_time (7384 + 1 # 2) = "01:01:32"%string.
Proof.
  destruct (format_elapsed_time_fields (7384 + 1 # 2))
    as (_ & _ & _ & _ & H); [discriminate|].
  destruct H as [_ H]; [reflexivity|].
  split; [reflexivity|]. split; [reflexivity|].
  rewrite H. reflexivity.
Defined.

(** ** Texts *)

Lemma append_nil_r (s : string) : (s ++ "")%string = s.
Proof. induction s as [|c s IH]; simpl; [reflexivity|now rewrite IH]. Qed.

Lemma append_assoc (a b c : string) :
  ((a ++ b) ++ c)%string = (a ++ b ++ c)%string.
Proof. induction a as [|x a IH]; simpl; [reflexivity|now rewrite IH]. Qed.

Lemma append_eq_nil (a b : string) :
  (a ++ b)%string = EmptyString -> a = EmptyString /\ b = EmptyString.
Proof. destruct a; simpl; [now split|discriminate]. Qed.

Lemma length_append (a b : string) :
  String.length (a ++ b) = (String.length a + String.length b)%nat.
Proof. induction a as [|x a IH]; simpl; [reflexivity|now rewrite IH]. Qed.

Lemma string_forallb_append (p : ascii -> bool) (a b : string) :
  string_forallb p (a ++ b) = string_forallb p a && string_forallb p b.
Proof.
  induction a as [|x a IH]; simpl; [reflexivity|].
  now rewrite IH, andb_assoc.
Qed.

Lemma prefix_spec (p s : string) :
  String.prefix p s = true <-> exists after, s = (p ++ after)%string.
Proof.
  revert s. induction p as [|c p IH]; intros s.
  - destruct s; simpl; split; trivial; intros _; eexists; reflexivity.
  - destruct s as [|x s]; simpl.
    + split; [discriminate|intros [after H]; discriminate].
    + destruct (ascii_dec c x) as [->|Hne].
      * rewrite IH. split; intros [after H]; exists after.
        -- now rewrite H.
        -- now injection H.
      * split; [discriminate|]. intros [after H]. injection H as H _.
        congruence.
Qed.

Lemma contains_spec (pattern s : string) :
  contains pattern s = true <-> occurs_in pattern s.
Proof.
  unfold occurs_in. induction s as [|c s IH].
  - cbn [contains]. rewrite orb_false_r, prefix_spec. split.
    + intros [after H]. exists EmptyString, after. exact H.
    + intros (before & after & H). symmetry in H.
      apply append_eq_nil in H. destruct H as [-> H].
      exists after. now rewrite H.
  - cbn [contains]. rewrite orb_true_iff, prefix_spec, IH. split.
    + intros [[after H]|(before & after & H)].
      * exists EmptyString, after. exact H.
      * exists (String c before), after. simpl. now rewrite H.
    + intros (before & after & H). destruct before as [|x before].
      * left. exists after. exact H.
      * right. simpl in H. injection H as _ H. now exists before, after.
Qed.

(** X14. [is_5xx_error] holds exactly for the texts in which one of the six
    signatures occurs, and the conflict test for those in which
    [BlobAlreadyExists] occurs; so both classifications survive any text
    put before or after the error text. *)
Theorem classification_by_occurrence (error_str : string) :
  (is_5xx_error error_str = true <->
   exists pattern, In pattern error_patterns /\
                   occurs_in pattern error_str) /\
  (is_conflict error_str = true <->
   occurs_in "BlobAlreadyExists" error_str) /\
  (forall before after,
     (is_5xx_error error_str = true ->
      is_5xx_error (before ++ error_str ++ after) = true) /\
     (is_conflict error_str = true ->
      is_conflict (before ++ error_str ++ after) = true)).
Proof.
  assert (Hwrap : forall pattern before after,
            occurs_in pattern error_str ->
            occurs_in pattern (before ++ error_str ++ after)).
  { intros pattern before after (b & a & ->).
    exists (before ++ b)%string, (a ++ after)%string.
    now rewrite !append_assoc. }
  assert (H5 : forall s, is_5xx_error s = true <->
            exists pattern, In pattern error_patterns /\
                            occurs_in pattern s).
  { intros s. unfold is_5xx_error. rewrite existsb_exists.
    split; intros (pattern & Hin & H); exists pattern; split; trivial;
      now apply contains_spec. }
  split; [apply H5|]. split; [apply contains_spec|].
  intros before after. split.
  - rewrite !H5. intros (pattern & Hin & H). exists pattern.
    split; [exact Hin|now apply Hwrap].
  - unfold is_conflict. rewrite !contains_spec. apply Hwrap.
Qed.

(** ** Matching by derivatives *)

Lemma lang_seq_inv (r1 r2 : regex) (s : string) :
  lang (Seq r1 r2) s ->
  exists s1 s2, s = (s1 ++ s2)%string /\ lang r1 s1 /\ lang r2 s2.
Proof. intros H. inversion H; subst. now exists s1, s2. Qed.

Lemma nullable_spec (r : regex) : nullable r = true <-> lang r EmptyString.
Proof.
  induction r as [| |p|r1 IH1 r2 IH2|r1 IH1 r2 IH2|r IH]; simpl.
  - split; [discriminate|intros H; inversion H].
  - split; [constructor|reflexivity].
  - split; [discriminate|intros H; inversion H].
  - rewrite andb_true_iff, IH1, IH2. split.
    + intros [H1 H2]. change EmptyString with ("" ++ "")%string.
      now constructor.
    + intros H. apply lang_seq_inv in H.
      destruct H as (s1 & s2 & Heq & H1 & H2). symmetry in Heq.
      apply append_eq_nil in Heq. destruct Heq as [-> ->]. now split.
  - rewrite orb_true_iff, IH1, IH2. split.
    + intros [H|H]; [now apply lang_alt_l|now apply lang_alt_r].
    + intros H. inversion H; subst; [now left|now right].
  - split; [constructor|reflexivity].
Qed.

Lemma deriv_sound (c : ascii) (r : regex) :
  forall s, lang (deriv c r) s -> lang r (String c s).
Proof.
  induction r as [| |p|r1 IH1 r2 IH2|r1 IH1 r2 IH2|r IH]; simpl; intros s H.
  - inversion H.
  - inversion H.
  - destruct (p c) eqn:Hp; inversion H; subst. now constructor.
  - assert (Hleft : forall t, lang (Seq (deriv c r1) r2) t ->
                              lang (Seq r1 r2) (String c t)).
    { intros t Ht. apply lang_seq_inv in Ht.
      destruct Ht as (s1 & s2 & -> & H1 & H2).
      change (String c (s1 ++ s2)) with (String c s1 ++ s2)%string.
      constructor; [now apply IH1|assumption]. }
    destruct (nullable r1) eqn:Hn; [|now apply Hleft].
    inversion H; subst; [now apply Hleft|].
    change (String c s) with ("" ++ String c s)%string.
    constructor; [now apply nullable_spec|now apply IH2].
  - inversion H; subst; [apply lang_alt_l|apply lang_alt_r]; auto.
  - apply lang_seq_inv in H. destruct H as (s1 & s2 & -> & H1 & H2).
    change (String c (s1 ++ s2)) with (String c s1 ++ s2)%string.
    constructor; [now apply IH|assumption].
Qed.

Lemma deriv_complete (c : ascii) (r : regex) (t : string) :
  lang r t -> forall s, t = String c s -> lang (deriv c r) s.
Proof.
  induction 1 as [|p x Hp|r1 r2 s1 s2 H1 IH1 H2 IH2|r1 r2 s0 H1 IH1
                  |r1 r2 s0 H2 IH2|r|r s1 s2 H1 IH1 H2 IH2];
    intros s Heq; simpl.
  - discriminate.
  - injection Heq as -> <-. rewrite Hp. constructor.
  - destruct s1 as [|x s1]; simpl in Heq.
    + assert (Hn : nullable r1 = true) by (now apply nullable_spec).
      rewrite Hn. apply lang_alt_r. now apply IH2.
    + injection Heq as -> <-.
      assert (Hl : lang (Seq (deriv c r1) r2) (s1 ++ s2)).
      { constructor; [now apply IH1|assumption]. }
      destruct (nullable r1); [now apply lang_alt_l|assumption].
  - apply lang_alt_l. now apply IH1.
  - apply lang_alt_r. now apply IH2.
  - discriminate.
  - destruct s1 as [|x s1]; simpl in Heq.
    + now apply IH2.
    + injection Heq as -> <-. constructor; [now apply IH1|assumption].
Qed.

(** The matcher decides the language of the pattern. *)
Lemma matches_spec (s : string) :
  forall r, matches r s = true <-> lang r s.
Proof.
  induction s as [|c s IH]; intros r; simpl.
  - apply nullable_spec.
  - rewrite IH. split.
    + apply deriv_sound.
    + intros H. now apply (deriv_complete c r (String c s)).
Qed.

Lemma lang_lit (p s : string) : lang (lit p) s <-> s = p.
Proof.
  revert s. induction p as [|c p IH]; intros s; simpl.
  - split; [intros H; now inversion H|intros ->; constructor].
  - split.
    + intros H. apply lang_seq_inv in H.
      destruct H as (s1 & s2 & -> & H1 & H2).
      inversion H1 as [|q x Hx| | | | |]; subst.
      apply Ascii.eqb_eq in Hx. subst. apply IH in H2. now subst.
    + intros ->. change (String c p) with (String c "" ++ p)%string.
      constructor; [|now apply IH].
      constructor. apply Ascii.eqb_refl.
Qed.

Lemma lang_exactly (p : ascii -> bool) (k : nat) :
  forall s, lang (exactly k (Class p)) s <->
            String.length s = k /\ string_forallb p s = true.
Proof.
  induction k as [|k IH]; intros s; simpl.
  - split.
    + intros H. inversion H. now split.
    + intros [H _]. destruct s; [constructor|discriminate].
  - split.
    + intros H. apply lang_seq_inv in H.
      destruct H as (s1 & s2 & -> & H1 & H2).
      inversion H1 as [|q x Hx| | | | |]; subst.
      apply IH in H2. destruct H2 as [Hlen Hall]. simpl.
      now rewrite Hlen, Hx, Hall.
    + intros [Hlen Hall]. destruct s as [|c s]; [discriminate|].
      simpl in *. apply andb_true_iff in Hall. destruct Hall as [Hc Hall].
      change (String c s) with (String c "" ++ s)%string.
      constructor; [now constructor|]. apply IH. split; [lia|assumption].
Qed.

Lemma lang_at_most (p : ascii -> bool) (k : nat) :
  forall s, lang (at_most k (Class p)) s <->
            (String.length s <= k)%nat /\ string_forallb p s = true.
Proof.
  induction k as [|k IH]; intros s; simpl.
  - split.
    + intros H. inversion H. simpl. now split.
    + intros [H _]. destruct s; [constructor|simpl in H; lia].
  - split.
    + intros H. inversion H as [| | |r1 r2 s0 H1|r1 r2 s0 H1| |]; subst.
      * inversion H1. simpl. split; [lia|reflexivity].
      * apply lang_seq_inv in H1.
        destruct H1 as (s1 & s2 & -> & H1 & H2).
        inversion H1 as [|q x Hx| | | | |]; subst.
        apply IH in H2. destruct H2 as [Hlen Hall]. simpl.
        rewrite Hx, Hall. split; [lia|reflexivity].
    + intros [Hlen Hall]. destruct s as [|c s].
      * apply lang_alt_l. constructor.
      * simpl in *. apply andb_true_iff in Hall.
        destruct Hall as [Hc Hall]. apply lang_alt_r.
        change (String c s) with (String c "" ++ s)%string.
        constructor; [now constructor|]. apply IH.
        split; [lia|assumption].
Qed.

Lemma lang_repeat_range (p : ascii -> bool) (m n : nat) (s : string) :
  (m <= n)%nat ->
  (lang (repeat_range m n (Class p)) s <->
   (m <= String.length s <= n)%nat /\ string_forallb p s = true).
Proof.
  intros Hmn. unfold repeat_range. split.
  - intros H. apply lang_seq_inv in H.
    destruct H as (s1 & s2 & -> & H1 & H2).
    apply lang_exactly in H1. apply lang_at_most in H2.
    destruct H1 as [Hl1 Ha1]. destruct H2 as [Hl2 Ha2].
    rewrite length_append, string_forallb_append, Ha1, Ha2.
    split; [lia|reflexivity].
  - revert n s Hmn. induction m as [|m IH]; intros n s Hmn [Hlen Hall].
    + change s with ("" ++ s)%string. constructor; [constructor|].
      apply lang_at_most. rewrite Nat.sub_0_r. split; [lia|assumption].
    + destruct s as [|c s]; [simpl in Hlen; lia|].
      destruct n as [|n]; [lia|]. simpl in Hlen, Hall.
      apply andb_true_iff in Hall. destruct Hall as [Hc Hall].
      assert (H : lang (Seq (exactly m (Class p))
                            (at_most (n - m) (Class p))) s).
      { apply IH; [lia|]. split; [lia|assumption]. }
      apply lang_seq_inv in H. destruct H as (s1 & s2 & -> & H1 & H2).
      change (String c (s1 ++ s2)) with (String c s1 ++ s2)%string.
      constructor; [|exact H2]. simpl.
      change (String c s1) with (String c "" ++ s1)%string.
      constructor; [now constructor|exact H1].
Qed.

Lemma lang_star_class (p : ascii -> bool) (s : string) :
  lang (Star (Class p)) s <-> string_forallb p s = true.
Proof.
  split.
  - intros H. remember (Star (Class p)) as r eqn:Hr.
    induction H as [| | | | | |r0 s1 s2 H1 _ H2 IH2]; try discriminate.
    + reflexivity.
    + injection Hr as ->. inversion H1; subst. simpl.
      rewrite H0. now apply IH2.
  - induction s as [|c s IH]; simpl; intros H; [constructor|].
    apply andb_true_iff in H. destruct H as [Hc Hall].
    change (String c s) with (String c "" ++ s)%string.
    constructor; [now constructor|now apply IH].
Qed.

Lemma strip_line_feed_spec (s t : string) :
  strip_line_feed s = Some t <-> s = (t ++ line_feed)%string.
Proof.
  revert t. induction s as [|c s IH]; intros t.
  - simpl. split; [discriminate|]. intros H. symmetry in H.
    apply append_eq_nil in H. destruct H as [_ H]. discriminate.
  - destruct s as [|x s].
    + simpl. destruct (Ascii.eqb c (ascii_of_nat 10)) eqn:Hc.
      * apply Ascii.eqb_eq in Hc. subst c. split.
        -- now intros [= <-].
        -- intros H. destruct t as [|y t]; [reflexivity|].
           simpl in H. injection H as _ H. symmetry in H.
           apply append_eq_nil in H. destruct H as [_ H]. discriminate.
      * apply Ascii.eqb_neq in Hc. split; [discriminate|].
        intros H. destruct t as [|y t]; simpl in H.
        -- injection H as H. congruence.
        -- injection H as _ H. symmetry in H.
           apply append_eq_nil in H. destruct H as [_ H]. discriminate.
    + change (strip_line_feed (String c (String x s)))
        with (match strip_line_feed (String x s) with
              | Some t => Some (String c t)
              | None => None
              end).
      split.
      * destruct (strip_line_feed (String x s)) as [t'|] eqn:Ht;
          [|discriminate].
        intros [= <-]. pose proof (proj1 (IH t') eq_refl) as Hs.
        simpl. now rewrite Hs.
      * intros H. destruct t as [|y t]; [discriminate|].
        simpl in H. injection H as -> H.
        apply IH in H. now rewrite H.
Qed.

(** ** The validators of the command line *)

Lemma re_match_anchored_spec (r : regex) (s : string) :
  re_match_anchored r s = true <->
  exists body nl, s = (body ++ nl)%string /\
                  (nl = EmptyString \/ nl = line_feed) /\ lang r body.
Proof.
  unfold re_match_anchored. rewrite orb_true_iff, matches_spec. split.
  - intros [H|H].
    + exists s, EmptyString. rewrite append_nil_r. auto.
    + destruct (strip_line_feed s) as [t|] eqn:Ht; [|discriminate].
      apply strip_line_feed_spec in Ht. apply matches_spec in H.
      exists t, line_feed. auto.
  - intros (body & nl & -> & [->| ->] & H).
    + left. now rewrite append_nil_r.
    + right.
      assert (Ht : strip_line_feed (body ++ line_feed) = Some body)
        by (now apply strip_line_feed_spec).
      rewrite Ht. now apply matches_spec.
Qed.

Lemma storage_uri_lang (s : string) :
  lang storage_uri_pattern s <->
  exists acct kind,
    s = ("https://" ++ acct ++ "." ++ kind ++ ".core.windows.net")%string /\
    (3 <= String.length acct <= 24)%nat /\
    string_forallb lower_alnum acct = true /\
    (kind = "blob"%string \/ kind = "dfs"%string).
Proof.
  unfold storage_uri_pattern. split.
  - intros H.
    apply lang_seq_inv in H. destruct H as (s1 & t1 & -> & H1 & H).
    apply lang_seq_inv in H. destruct H as (acct & t2 & -> & H2 & H).
    apply lang_seq_inv in H. destruct H as (s3 & t3 & -> & H3 & H).
    apply lang_seq_inv in H. destruct H as (kind & s5 & -> & H4 & H5).
    apply lang_lit in H1, H3, H5. subst s1 s3 s5.
    apply lang_repeat_range in H2; [|lia]. destruct H2 as [Hlen Hall].
    exists acct, kind. repeat split; trivial; try lia.
    inversion H4; subst; [left|right]; now apply lang_lit.
  - intros (acct & kind & -> & Hlen & Hall & Hkind).
    constructor; [now apply lang_lit|].
    constructor; [apply lang_repeat_range; [lia|now split]|].
    constructor; [now apply lang_lit|].
    constructor; [|now apply lang_lit].
    destruct Hkind as [-> | ->];
      [apply lang_alt_l|apply lang_alt_r]; now apply lang_lit.
Qed.

(** X15. [validate_storage_uri] returns its argument or raises, and it
    accepts exactly the texts [https://<account>.<kind>.core.windows.net]
    with an account of 3 to 24 lowercase letters and digits and a kind
    [blob] or [dfs], followed by nothing or by one line feed, which the
    [$] of the pattern lets through. *)
Theorem validate_storage_uri_spec (uri : string) :
  (forall u, validate_storage_uri uri = Some u -> u = uri) /\
  (validate_storage_uri uri = Some uri <->
   exists acct kind nl,
     uri = ("https://" ++ acct ++ "." ++ kind ++ ".core.windows.net"
            ++ nl)%string /\
     (3 <= String.length acct <= 24)%nat /\
     string_forallb lower_alnum acct = true /\
     (kind = "blob"%string \/ kind = "dfs"%string) /\
     (nl = EmptyString \/ nl = line_feed)).
Proof.
  unfold validate_storage_uri. split.
  - intros u. destruct (re_match_anchored storage_uri_pattern uri);
      simpl; [now intros [= <-]|discriminate].
  - destruct (re_match_anchored storage_uri_pattern uri) eqn:Hm; simpl.
    + apply re_match_anchored_spec in Hm.
      destruct Hm as (body & nl & -> & Hnl & Hbody).
      apply storage_uri_lang in Hbody.
      destruct Hbody as (acct & kind & -> & Hlen & Hall & Hkind).
      split; [intros _|reflexivity].
      exists acct, kind, nl. rewrite ?append_assoc. simpl.
      rewrite ?append_assoc. auto.
    + split; [discriminate|].
      intros (acct & kind & nl & -> & Hlen & Hall & Hkind & Hnl).
      assert (Ht : re_match_anchored storage_uri_pattern
                ("https://" ++ acct ++ "." ++ kind ++ ".core.windows.net"
                 ++ nl) = true).
      { apply re_match_anchored_spec.
        exists ("https://" ++ acct ++ "." ++ kind
                ++ ".core.windows.net")%string, nl.
        split; [|split; [exact Hnl|]].
        - rewrite ?append_assoc. simpl. now rewrite ?append_assoc.
        - apply storage_uri_lang. now exists acct, kind. }
      simpl in Hm, Ht. congruence.
Qed.

Lemma container_lang (s : string) :
  lang container_pattern s <->
  s <> EmptyString /\ string_forallb lower_alnum_hyphen s = true.
Proof.
  unfold container_pattern, one_or_more. split.
  - intros H. apply lang_seq_inv in H.
    destruct H as (s1 & s2 & -> & H1 & H2).
    inversion H1 as [|q x Hx| | | | |]; subst.
    apply lang_star_class in H2. simpl. rewrite Hx, H2.
    split; [discriminate|reflexivity].
  - intros [Hne Hall]. destruct s as [|c s]; [congruence|].
    simpl in Hall. apply andb_true_iff in Hall. destruct Hall as [Hc Hall].
    change (String c s) with (String c "" ++ s)%string.
    constructor; [now constructor|now apply lang_star_class].
Qed.

Lemma endswith_char_snoc (c x : ascii) (s : string) :
  endswith_char c (s ++ String x EmptyString) = Ascii.eqb x c.
Proof.
  induction s as [|y s IH]; [reflexivity|].
  change (endswith_char c (String y s ++ String x ""))
    with (endswith_char c (String y (s ++ String x ""))).
  destruct (s ++ String x "")%string eqn:Hs; [|exact IH].
  destruct s; discriminate.
Qed.

(** X16. [validate_container_name] accepts a name exactly when it has 3 to
    63 characters, consists of lowercase letters, digits and hyphens
    followed by nothing or by one line feed, does not start with a hyphen
    and does not end with one.  The last test looks at the final
    character, so a name whose hyphen is followed by a line feed passes. *)
Theorem validate_container_name_spec (name : string) :
  (validate_container_name name = Some name <->
   (3 <= String.length name <= 63)%nat /\
   (exists body nl,
      name = (body ++ nl)%string /\
      (nl = EmptyString \/ nl = line_feed) /\
      body <> EmptyString /\
      string_forallb lower_alnum_hyphen body = true) /\
   startswith "-" name = false /\
   endswith_char "-" name = false) /\
  (forall body,
     name = (body ++ line_feed)%string ->
     (2 <= String.length body <= 62)%nat ->
     string_forallb lower_alnum_hyphen body = true ->
     startswith "-" body = false ->
     validate_container_name name = Some name).
Proof.
  assert (Hspec : validate_container_name name = Some name <->
   (3 <= String.length name <= 63)%nat /\
   (exists body nl,
      name = (body ++ nl)%string /\
      (nl = EmptyString \/ nl = line_feed) /\
      body <> EmptyString /\
      string_forallb lower_alnum_hyphen body = true) /\
   startswith "-" name = false /\
   endswith_char "-" name = false).
  { unfold validate_container_name.
    destruct (Nat.leb 3 (String.length name)) eqn:H3;
      [apply Nat.leb_le in H3|apply Nat.leb_gt in H3];
      [|simpl; split; [discriminate|intros [? _]; lia]].
    destruct (Nat.leb (String.length name) 63) eqn:H63;
      [apply Nat.leb_le in H63|apply Nat.leb_gt in H63];
      [|simpl; split; [discriminate|intros [? _]; lia]].
    simpl.
    destruct (re_match_anchored container_pattern name) eqn:Hm; simpl.
    - apply re_match_anchored_spec in Hm.
      destruct Hm as (body & nl & Hname & Hnl & Hbody).
      apply container_lang in Hbody. destruct Hbody as [Hne Hall].
      destruct (startswith "-" name); simpl;
        [split; [discriminate|intros (_ & _ & H & _); discriminate]|].
      destruct (endswith_char "-" name); simpl;
        [split; [discriminate|intros (_ & _ & _ & H); discriminate]|].
      split; [intros _|reflexivity].
      split; [lia|]. split; [|now split].
      now exists body, nl.
    - split; [discriminate|].
      intros (_ & (body & nl & Hname & Hnl & Hne & Hall) & _).
      assert (Ht : re_match_anchored container_pattern name = true).
      { apply re_match_anchored_spec. exists body, nl.
        split; [exact Hname|]. split; [exact Hnl|].
        now apply container_lang. }
      congruence. }
  split; [exact Hspec|].
  intros body -> Hlen Hall Hstart. apply Hspec.
  rewrite length_append. simpl. split; [lia|]. split; [|split].
  - exists body, line_feed. split; [reflexivity|]. split; [now right|].
    split; [|exact Hall]. destruct body; [simpl in Hlen; lia|discriminate].
  - destruct body as [|c body]; [simpl in Hlen; lia|].
    unfold startswith in *.
    destruct (String.prefix "-" (String c body ++ line_feed)) eqn:Hp;
      [|reflexivity].
    apply prefix_spec in Hp. destruct Hp as [after Hp].
    injection Hp as -> _.
    assert (Hb : String.prefix "-" (String "-" body) = true)
      by (apply prefix_spec; now exists body).
    congruence.
  - unfold line_feed. now rewrite endswith_char_snoc.
Qed.

(** ** The credential *)

Lemma prefix_empty (s : string) : String.prefix "" s = true.
Proof. now destruct s. Qed.

Lemma split_str_nonempty (sep : string) (s : string) :
  forall skip, split_str sep skip s <> [].
Proof.
  induction s as [|c s IH]; intros skip; cbn [split_str]; [discriminate|].
  destruct skip as [|k]; [|apply IH].
  destruct (String.prefix sep (String c s)); [discriminate|].
  destruct (split_str sep 0 s); discriminate.
Qed.

(** A text without the separator is one segment. *)
Lemma split_str_absent (sep s : string) :
  contains sep s = false -> split_str sep 0 s = [s].
Proof.
  induction s as [|c s IH]; intros H; [reflexivity|].
  cbn [contains] in H. apply orb_false_iff in H. destruct H as [Hp Hc].
  cbn [split_str]. rewrite Hp, (IH Hc). reflexivity.
Qed.

(** A text with the separator is more than one. *)
Lemma split_str_present (sep s : string) :
  sep <> EmptyString ->
  contains sep s = true -> (2 <= length (split_str sep 0 s))%nat.
Proof.
  intros Hsep.
  induction s as [|c s IH]; intros H; cbn [contains] in H.
  - rewrite orb_false_r in H. destruct sep; [congruence|discriminate H].
  - cbn [split_str]. destruct (String.prefix sep (String c s)) eqn:Hp.
    + pose proof (split_str_nonempty sep s (String.length sep - 1)) as Hne.
      destruct (split_str sep (String.length sep - 1) s);
        [congruence|simpl; lia].
    + simpl in H. specialize (IH H).
      destruct (split_str sep 0 s); simpl in *; lia.
Qed.

Lemma contains_char_absent (c : ascii) (s : string) :
  string_forallb (fun x => negb (Ascii.eqb x c)) s = true ->
  forall rest, contains (String c rest) s = false.
Proof.
  induction s as [|x s IH]; intros H rest; [reflexivity|].
  simpl in H. apply andb_true_iff in H. destruct H as [Hx Hs].
  cbn [contains]. rewrite (IH Hs), orb_false_r.
  destruct (String.prefix (String c rest) (String x s)) eqn:Hp;
    [|reflexivity].
  apply prefix_spec in Hp. destruct Hp as [after Hp].
  injection Hp as -> _. rewrite Ascii.eqb_refl in Hx. discriminate.
Qed.

(** The first segment before a one-character separator. *)
Lemma split_str_first (c : ascii) (a rest : string) :
  string_forallb (fun x => negb (Ascii.eqb x c)) a = true ->
  exists l, split_str (String c "") 0 (a ++ String c rest) = a :: l.
Proof.
  induction a as [|x a IH]; intros H.
  - simpl. destruct (ascii_dec c c) as [_|Hne]; [|congruence].
    rewrite prefix_empty. now eexists.
  - simpl in H. apply andb_true_iff in H. destruct H as [Hx Ha].
    change (String x a ++ String c rest)%string
      with (String x (a ++ String c rest)).
    cbn [split_str].
    destruct (String.prefix (String c "") (String x (a ++ String c rest)))
      eqn:Hp.
    + apply prefix_spec in Hp. destruct Hp as [after Hp].
      injection Hp as -> _. rewrite Ascii.eqb_refl in Hx. discriminate.
    + destruct (IH Ha) as [l ->]. now exists l.
Qed.

Lemma lower_alnum_plain (c : ascii) :
  lower_alnum c = true ->
  negb (Ascii.eqb c "/") = true /\ negb (Ascii.eqb c ".") = true.
Proof.
  destruct c as [[] [] [] [] [] [] [] []]; vm_compute; intros H;
    try discriminate H; split; reflexivity.
Qed.

Lemma string_forallb_impl (p q : ascii -> bool) (s : string) :
  (forall c, p c = true -> q c = true) ->
  string_forallb p s = true -> string_forallb q s = true.
Proof.
  intros Hpq. induction s as [|c s IH]; simpl; [reflexivity|].
  intros H. apply andb_true_iff in H. destruct H as [Hc Hs].
  now rewrite (Hpq c Hc), IH.
Qed.

(** X17. A storage URI that [validate_storage_uri] accepts never makes
    [__init__] fail: with an access key that is not empty the credential is
    a named-key credential whose account name is the first label of the
    host, 3 to 24 lowercase letters and digits. *)
Theorem validated_uri_names_account (uri u : string) (k : ascii)
  (key : string) :
  validate_storage_uri uri = Some u ->
  exists acct,
    make_credential u (Some (String k key))
      = Some (NamedKey acct (String k key)) /\
    (3 <= String.length acct <= 24)%nat /\
    string_forallb lower_alnum acct = true /\
    String.prefix ("https://" ++ acct ++ ".") u = true.
Proof.
  intros Hv.
  destruct (validate_storage_uri_spec uri) as [Hsame Hspec].
  pose proof (Hsame u Hv) as ->. apply Hspec in Hv.
  destruct Hv as (acct & kind & nl & -> & Hlen & Hall & Hkind & Hnl).
  exists acct. split; [|split; [exact Hlen|split; [exact Hall|]]].
  - unfold make_credential, account_name.
    set (host := (acct ++ "." ++ kind ++ ".core.windows.net" ++ nl)%string).
    assert (Hsplit : split_str "//" 0 ("https://" ++ host)
                     = ["https:"%string; host]).
    { assert (Hhost : split_str "//" 0 host = [host]).
      { apply split_str_absent, contains_char_absent. unfold host.
        rewrite !string_forallb_append.
        rewrite (string_forallb_impl lower_alnum _ acct
                   (fun c H => proj1 (lower_alnum_plain c H)) Hall).
        destruct Hkind as [-> | ->]; destruct Hnl as [-> | ->];
          reflexivity. }
      simpl. rewrite prefix_empty, Hhost. reflexivity. }
    rewrite Hsplit.
    destruct (split_str_first "." acct
                (kind ++ ".core.windows.net" ++ nl)) as [l Hl].
    { apply (string_forallb_impl lower_alnum _ acct
               (fun c H => proj2 (lower_alnum_plain c H)) Hall). }
    change (nth_error ["https:"%string; host] 1) with (Some host).
    cbv beta iota.
    change (split_str "." 0 host)
      with (split_str "." 0
              (acct ++ String "." (kind ++ ".core.windows.net" ++ nl))).
    rewrite Hl. reflexivity.
  - apply prefix_spec.
    exists (kind ++ ".core.windows.net" ++ nl)%string.
    rewrite ?append_assoc. simpl. now rewrite ?append_assoc.
Qed.

Lemma validated_uri_names_account_witness :
  exists acct,
    make_credential "https://acct.dfs.core.windows.net" (Some "key"%string)
      = Some (NamedKey acct "key") /\
    (3 <= String.length acct <= 24)%nat /\
    string_forallb lower_alnum acct = true /\
    String.prefix ("https://" ++ acct ++ ".")
                  "https://acct.dfs.core.windows.net" = true.
Proof.
  apply (validated_uri_names_account "https://acct.dfs.core.windows.net").
  vm_compute. reflexivity.
Defined.

(** X18. Without an access key, or with an empty one, [__init__] takes the
    default credential whatever the URI.  With a key that is not empty it
    raises [IndexError] exactly when the URI has no [//] in it. *)
Theorem credential_needs_scheme (storage_uri : string) :
  make_credential storage_uri None = Some Default /\
  make_credential storage_uri (Some EmptyString) = Some Default /\
  (forall k key,
     make_credential storage_uri (Some (String k key)) = None <->
     ~ occurs_in "//" storage_uri).
Proof.
  split; [reflexivity|]. split; [reflexivity|]. intros k key.
  rewrite <- contains_spec. unfold make_credential, account_name.
  destruct (contains "//" storage_uri) eqn:Hc.
  - apply split_str_present in Hc; [|discriminate].
    destruct (split_str "//" 0 storage_uri) as [|s0 [|s1 l]];
      simpl in Hc; try lia. cbn [nth_error].
    pose proof (split_str_nonempty "." s1 0) as Hne.
    destruct (split_str "." 0 s1) as [|a l']; [congruence|].
    cbn [nth_error]. split; [discriminate|]. intros H. now destruct H.
  - rewrite (split_str_absent _ _ Hc). cbn [nth_error].
    split; [intros _; discriminate|reflexivity].
Qed.
